(** * PhoDispl: the image source, its load scheduler and its worker loop

    A shallow embedding of [image_source] (image-source.cpp): the
    priority queue of pending loads, the set of images to drop on sight,
    the worker loop that drains them, and the glue towards the image
    cache and the filesystem watcher.

    Conventions of the embedding:
    - a [std::shared_ptr<image>] is the address of the image object; the
      empty pointer is [None] of an [option];
    - a [std::vector] is a [list], an iterator into it is an index;
    - [size_t] priorities are values of [N]: the code only stores and
      compares them;
    - every block of code that runs under one [std::lock_guard] is one
      atomic transition. *)

From Stdlib Require OrderedTypeEx.
From stdpp Require Import base numbers list sorting strings.

(** ** Part I: the program *)

(** *** Scheduler data *)

Abbreviation image_ptr := nat (only parsing).

(** [using prio_shared_image = std::pair<size_t, std::shared_ptr<image>>] *)
Abbreviation prio_shared_image := (N * image_ptr)%type (only parsing).

Record scheduler : Type := Scheduler {
  scheduled_images_   : list prio_shared_image;
  unscheduled_images_ : list image_ptr
}.

Definition empty_scheduler : scheduler := Scheduler [] [].

(** The order [std::ranges::greater] induces through the projection
    [&prio_shared_image::first]: [prio_ge a b] reads "a may stand before b". *)
Definition prio_ge (a b : prio_shared_image) : Prop := (b.1 ≤ a.1)%N.

#[global] Instance prio_ge_dec a b : Decision (prio_ge a b).
Proof. unfold prio_ge. apply _. Defined.

(** [std::ranges::find(scheduled_images_, image, &prio_shared_image::second)]:
    the first position holding [image], with the entry found there. *)
Definition find_scheduled (image : image_ptr) (q : list prio_shared_image)
  : option (nat * prio_shared_image) :=
  list_find (λ e, e.2 = image) q.

(** [std::ranges::find(unscheduled_images_, image.get())] *)
Definition find_unscheduled (image : image_ptr) (u : list image_ptr)
  : option (nat * image_ptr) :=
  list_find (λ x, x = image) u.

(** Swap the element at iterator [jt] (index [j]) with [v.back()], then [v.pop_back()]. *)
Definition swap_pop_back {A} (j : nat) (v : list A) : list A :=
  match last v with
  | Some b => take (pred (length v)) (<[j := b]> v)
  | None => v
  end.

(** The purge of the unscheduled set at the end of [schedule_image]. *)
Definition purge (image : image_ptr) (u : list image_ptr) : list image_ptr :=
  match find_unscheduled image u with
  | Some (j, _) => swap_pop_back j u
  | None => u
  end.

(** The tail of [schedule_image] once the queue has changed: sort, then
    purge the image from the unscheduled set. *)
Definition sort_and_purge (sort_greater : list prio_shared_image → list prio_shared_image)
    (image : image_ptr) (q : list prio_shared_image) (u : list image_ptr) : scheduler :=
  Scheduler (sort_greater q) (purge image u).

(** [image_source::schedule_image], the part under [scheduled_images_lock_].
    [std::ranges::sort] is a parameter: the standard fixes its result up to
    the order of equivalent elements only. *)
Definition schedule_image (sort_greater : list prio_shared_image → list prio_shared_image)
    (image : image_ptr) (priority : N) (s : scheduler) : scheduler :=
  match find_scheduled image (scheduled_images_ s) with
  | None =>
      sort_and_purge sort_greater image
        (scheduled_images_ s ++ [(priority, image)]) (unscheduled_images_ s)
  | Some (i, e) =>
      if decide (e.1 ≠ priority) then
        sort_and_purge sort_greater image
          (<[i := (priority, e.2)]> (scheduled_images_ s)) (unscheduled_images_ s)
      else s
  end.

(** [image_source::unschedule_image] *)
Definition unschedule_image (image : image_ptr) (s : scheduler) : scheduler :=
  match find_scheduled image (scheduled_images_ s) with
  | Some (i, _) => Scheduler (delete i (scheduled_images_ s)) (unscheduled_images_ s)
  | None =>
      match find_unscheduled image (unscheduled_images_ s) with
      | None => Scheduler (scheduled_images_ s) (unscheduled_images_ s ++ [image])
      | Some _ => s
      end
  end.

(** [image_source::next_scheduled_image]: the returned pointer and the
    scheduler left behind. *)
Definition next_scheduled_image (s : scheduler) : option image_ptr * scheduler :=
  match last (scheduled_images_ s) with
  | None => (None, s)
  | Some e =>
      (Some e.2,
       Scheduler (take (pred (length (scheduled_images_ s))) (scheduled_images_ s))
                 (unscheduled_images_ s))
  end.

(** What a conforming [std::ranges::sort(v, std::ranges::greater(), first)]
    guarantees: a rearrangement of [v] that is ordered by [prio_ge]. *)
Definition conforming_sort (sort_greater : list prio_shared_image → list prio_shared_image)
  : Prop :=
  ∀ q, sort_greater q ≡ₚ q ∧ Sorted prio_ge (sort_greater q).

(** A conforming sort to run the model with where only the guarantees of
    [conforming_sort] matter. It is not the algorithm of the C++ library:
    for that see [libstdcxx_sort_greater] below. *)
Definition merge_sort_greater (q : list prio_shared_image) : list prio_shared_image :=
  merge_sort prio_ge q.

(** *** The sort of the C++ library

    [std::ranges::sort] as GNU libstdc++ 12 implements it: [ranges::sort]
    (bits/ranges_algo.h) calls [std::sort] with the comparison composed with
    the projection; [std::sort] (bits/stl_algo.h) is an introsort: quicksort
    with a median-of-three pivot down to ranges of 16 elements, heapsort
    (bits/stl_heap.h) once the recursion is [2 * lg n] deep, and one
    insertion sort over the whole range at the end. A random-access
    iterator is an index into the vector; [comp a b] reads "a goes before
    b". *)
Module libstdcxx.
Section sort.
Context {A : Type}.
(** What a read past the end of the vector yields; no such read happens
    for a strict weak order. *)
Variable d : A.
Variable comp : A → A → bool.

Definition at_ (v : list A) (i : nat) : A := default d (v !! i).

(** [std::iter_swap(a, b)] *)
Definition iter_swap (a b : nat) (v : list A) : list A :=
  <[b := at_ v a]> (<[a := at_ v b]> v).

(** [__move_median_to_first(result, a, b, c, comp)] *)
Definition move_median_to_first (result a b c : nat) (v : list A) : list A :=
  if comp (at_ v a) (at_ v b) then
    if comp (at_ v b) (at_ v c) then iter_swap result b v
    else if comp (at_ v a) (at_ v c) then iter_swap result c v
    else iter_swap result a v
  else if comp (at_ v a) (at_ v c) then iter_swap result a v
  else if comp (at_ v b) (at_ v c) then iter_swap result c v
  else iter_swap result b v.

(** The loop of [__unguarded_linear_insert]: [val] travels down from
    [last] while it goes before its left neighbour. *)
Fixpoint unguarded_linear_insert_loop (fuel : nat) (val : A) (last : nat) (v : list A)
  : list A :=
  match fuel, last with
  | S fuel', S next =>
      if comp val (at_ v next)
      then unguarded_linear_insert_loop fuel' val next (<[last := at_ v next]> v)
      else <[last := val]> v
  | _, _ => <[last := val]> v
  end.

(** [__unguarded_linear_insert(last, comp)] *)
Definition unguarded_linear_insert (last : nat) (v : list A) : list A :=
  unguarded_linear_insert_loop last (at_ v last) last v.

(** [__insertion_sort(first, last, comp)]: an element that goes before
    [*first] is moved there by [std::move_backward], any other is inserted
    by [__unguarded_linear_insert]. *)
Definition insertion_sort (first last : nat) (v : list A) : list A :=
  if decide (first = last) then v
  else
    foldl (λ v i,
             if comp (at_ v i) (at_ v first) then
               take first v ++ at_ v i :: take (i - first) (drop first v) ++ drop (S i) v
             else unguarded_linear_insert i v)
          v (seq (S first) (last - S first)).

(** [__unguarded_insertion_sort(first, last, comp)] *)
Definition unguarded_insertion_sort (first last : nat) (v : list A) : list A :=
  foldl (λ v i, unguarded_linear_insert i v) v (seq first (last - first)).

(** [enum { _S_threshold = 16 }] *)
Definition S_threshold : nat := 16.

(** [__final_insertion_sort(first, last, comp)] *)
Definition final_insertion_sort (first last : nat) (v : list A) : list A :=
  if decide (S_threshold < last - first) then
    unguarded_insertion_sort (first + S_threshold) last
      (insertion_sort first (first + S_threshold) v)
  else insertion_sort first last v.

(** [while (comp(first, pivot)) ++first;] *)
Fixpoint scan_up (fuel first pivot : nat) (v : list A) : nat :=
  match fuel with
  | 0 => first
  | S fuel' =>
      if comp (at_ v first) (at_ v pivot) then scan_up fuel' (S first) pivot v else first
  end.

(** [while (comp(pivot, last)) --last;] *)
Fixpoint scan_down (fuel last pivot : nat) (v : list A) : nat :=
  match fuel with
  | 0 => last
  | S fuel' =>
      if comp (at_ v pivot) (at_ v last) then scan_down fuel' (pred last) pivot v else last
  end.

(** [__unguarded_partition(first, last, pivot, comp)]: the cut and the
    vector. Every round moves [first] up by one at least, so [length v]
    rounds are enough. *)
Fixpoint unguarded_partition (fuel first last pivot : nat) (v : list A) : nat * list A :=
  match fuel with
  | 0 => (first, v)
  | S fuel' =>
      let first := scan_up (length v) first pivot v in
      let last := scan_down (length v) (pred last) pivot v in
      if decide (first < last)
      then unguarded_partition fuel' (S first) last pivot (iter_swap first last v)
      else (first, v)
  end.

(** [__unguarded_partition_pivot(first, last, comp)] *)
Definition unguarded_partition_pivot (first last : nat) (v : list A) : nat * list A :=
  let mid := first + (last - first) / 2 in
  unguarded_partition (length v) (first + 1) last first
    (move_median_to_first first (first + 1) mid (last - 1) v).

(** [__push_heap(first, holeIndex, topIndex, value, comp)] *)
Fixpoint push_heap (fuel first holeIndex topIndex : nat) (value : A) (v : list A)
  : list A :=
  match fuel with
  | 0 => <[first + holeIndex := value]> v
  | S fuel' =>
      let parent := (holeIndex - 1) / 2 in
      if bool_decide (topIndex < holeIndex) && comp (at_ v (first + parent)) value
      then push_heap fuel' first parent topIndex value
             (<[first + holeIndex := at_ v (first + parent)]> v)
      else <[first + holeIndex := value]> v
  end.

(** The first loop of [__adjust_heap]: the hole sinks to the child that
    does not go before its sibling. Returns the hole and the vector. *)
Fixpoint sift_hole_down (fuel first holeIndex len : nat) (v : list A) : nat * list A :=
  match fuel with
  | 0 => (holeIndex, v)
  | S fuel' =>
      if decide (holeIndex < (len - 1) / 2) then
        let secondChild := 2 * (holeIndex + 1) in
        let secondChild :=
          if comp (at_ v (first + secondChild)) (at_ v (first + (secondChild - 1)))
          then secondChild - 1 else secondChild in
        sift_hole_down fuel' first secondChild len
          (<[first + holeIndex := at_ v (first + secondChild)]> v)
      else (holeIndex, v)
  end.

(** [__adjust_heap(first, holeIndex, len, value, comp)] *)
Definition adjust_heap (first holeIndex len : nat) (value : A) (v : list A) : list A :=
  let '(secondChild, v) := sift_hole_down len first holeIndex len v in
  let '(hole, v) :=
    if Nat.even len && bool_decide (secondChild = (len - 2) / 2) then
      (2 * (secondChild + 1) - 1,
       <[first + secondChild := at_ v (first + (2 * (secondChild + 1) - 1))]> v)
    else (secondChild, v) in
  push_heap len first hole holeIndex value v.

(** [__pop_heap(first, last, result, comp)] *)
Definition pop_heap (first last result : nat) (v : list A) : list A :=
  adjust_heap first 0 (last - first) (at_ v result) (<[result := at_ v first]> v).

(** [__make_heap(first, last, comp)] *)
Definition make_heap (first last : nat) (v : list A) : list A :=
  if decide (last - first < 2) then v
  else
    let len := last - first in
    foldl (λ v parent, adjust_heap first parent len (at_ v (first + parent)) v)
          v (reverse (seq 0 (S ((len - 2) / 2)))).

(** [__sort_heap(first, last, comp)] *)
Definition sort_heap (first last : nat) (v : list A) : list A :=
  foldl (λ v last', pop_heap first last' last' v)
        v (reverse (seq (S first) (last - S first))).

(** [__heap_select(first, middle, last, comp)] *)
Definition heap_select (first middle last : nat) (v : list A) : list A :=
  foldl (λ v i, if comp (at_ v i) (at_ v first) then pop_heap first middle i v else v)
        (make_heap first middle v) (seq middle (last - middle)).

(** [__partial_sort(first, middle, last, comp)] *)
Definition partial_sort (first middle last : nat) (v : list A) : list A :=
  sort_heap first middle (heap_select first middle last v).

(** [__introsort_loop(first, last, depth_limit, comp)]: the loop narrows
    [last] to the cut after sorting the upper part; [depth_limit] goes
    down by one in every round. *)
Fixpoint introsort_loop (depth_limit first last : nat) (v : list A) : list A :=
  if decide (S_threshold < last - first) then
    match depth_limit with
    | 0 => partial_sort first last last v
    | S depth_limit' =>
        let '(cut, v) := unguarded_partition_pivot first last v in
        introsort_loop depth_limit' first cut (introsort_loop depth_limit' cut last v)
    end
  else v.

(** [__sort(first, last, comp)] over the whole vector; [std::__lg] is the
    binary logarithm rounded down. *)
Definition sort (v : list A) : list A :=
  match v with
  | [] => v
  | _ =>
      final_insertion_sort 0 (length v)
        (introsort_loop (Nat.log2 (length v) * 2) 0 (length v) v)
  end.
End sort.
End libstdcxx.

(** [std::ranges::sort(scheduled_images_, std::ranges::greater(),
    &prio_shared_image::first)] with the library's sort: an entry goes
    before another when its priority is greater. *)
Definition libstdcxx_sort_greater (q : list prio_shared_image) : list prio_shared_image :=
  libstdcxx.sort (0%N, 0) (λ a b, bool_decide (b.1 < a.1)%N) q.

(** Calls on the scheduler, to speak about reachable states. *)
Inductive scheduler_call : Type :=
  | call_schedule (image : image_ptr) (priority : N)
  | call_unschedule (image : image_ptr)
  | call_next.

Definition do_call (sort_greater : list prio_shared_image → list prio_shared_image)
    (c : scheduler_call) (s : scheduler) : scheduler :=
  match c with
  | call_schedule image priority => schedule_image sort_greater image priority s
  | call_unschedule image => unschedule_image image s
  | call_next => (next_scheduled_image s).2
  end.

Definition do_calls (sort_greater : list prio_shared_image → list prio_shared_image)
    (cs : list scheduler_call) (s : scheduler) : scheduler :=
  foldl (λ s c, do_call sort_greater c s) s cs.

Definition queued_images (s : scheduler) : list image_ptr := (scheduled_images_ s).*2.

(** The entries of a queue at priority [p] other than [image]'s, in queue order. *)
Definition others_at (p : N) (image : image_ptr) (q : list prio_shared_image)
  : list image_ptr :=
  (filter (λ e, e.1 = p ∧ e.2 ≠ image) q).*2.


(** *** Images and the worker loop *)

(** Modelled from the spec: the states of an image (image.hpp is not among
    the sources): unloaded, loading, loaded or failed; [load()] ends in
    loaded or failed, [clear()] returns to unloaded from any state. *)
Inductive image_state : Type := unloaded | loading | loaded | failed.

#[global] Instance image_state_eq_dec : EqDecision image_state.
Proof. solve_decision. Defined.

(** Where the worker thread stands in [work_loop]. *)
Inductive worker_pc : Type :=
  | at_loop_head                    (* testing [!stoken.stop_requested()] of the inner loop *)
  | in_load (img : image_ptr)       (* inside [img->load()] *)
  | after_load (img : image_ptr)    (* [load()] has returned, the lock is not yet taken *)
  | at_stop_check                   (* inner loop left, testing [stoken.stop_requested()] *)
  | waiting                         (* blocked in [worker_wakeup_.wait] *)
  | exited.                         (* [work_loop] has returned *)

#[global] Instance worker_pc_eq_dec : EqDecision worker_pc.
Proof. solve_decision. Defined.

(** Methods of an image the worker thread has called. *)
Inductive image_call : Type :=
  | called_load (img : image_ptr)
  | called_clear (img : image_ptr).

#[global] Instance image_call_eq_dec : EqDecision image_call.
Proof. solve_decision. Defined.

(** The state shared between the worker thread and its clients. *)
Record loader : Type := Loader {
  sched          : scheduler;
  images         : image_ptr → image_state;
  stop_requested : bool;
  pc             : worker_pc;
  worker_calls   : list image_call
}.

Definition set_image (img : image_ptr) (st : image_state)
    (m : image_ptr → image_state) : image_ptr → image_state :=
  λ j, if decide (j = img) then st else m j.

Section work_loop.
(** [image::operator bool], tested on a dequeued image before loading it. *)
Variable operator_bool : image_state → bool.

(** One step of the worker thread. [load_ok] tells how a running
    [load()] ends; it is read in [in_load] only. *)
Definition work_loop_step (load_ok : bool) (l : loader) : loader :=
  match pc l with
  | at_loop_head =>
      if stop_requested l then
        Loader (sched l) (images l) (stop_requested l) at_stop_check (worker_calls l)
      else
        match next_scheduled_image (sched l) with
        | (None, s') =>
            Loader s' (images l) (stop_requested l) at_stop_check (worker_calls l)
        | (Some img, s') =>
            if operator_bool (images l img) then
              Loader s' (images l) (stop_requested l) at_loop_head (worker_calls l)
            else
              Loader s' (set_image img loading (images l)) (stop_requested l)
                     (in_load img) (worker_calls l ++ [called_load img])
        end
  | in_load img =>
      Loader (sched l) (set_image img (if load_ok then loaded else failed) (images l))
             (stop_requested l) (after_load img) (worker_calls l)
  | after_load img =>
      match find_unscheduled img (unscheduled_images_ (sched l)) with
      | Some _ =>
          Loader (Scheduler (scheduled_images_ (sched l)) [])
                 (set_image img unloaded (images l)) (stop_requested l)
                 at_loop_head (worker_calls l ++ [called_clear img])
      | None =>
          Loader (Scheduler (scheduled_images_ (sched l)) [])
                 (images l) (stop_requested l) at_loop_head (worker_calls l)
      end
  | at_stop_check =>
      Loader (sched l) (images l) (stop_requested l)
             (if stop_requested l then exited else waiting) (worker_calls l)
  | waiting =>
      Loader (sched l) (images l) (stop_requested l) at_loop_head (worker_calls l)
  | exited => l
  end.
End work_loop.

(** What the other threads do to the shared state, and the worker's steps. *)
Inductive event : Type :=
  | ev_schedule (img : image_ptr) (priority : N)   (* [schedule_image] *)
  | ev_unschedule (img : image_ptr)                (* [unschedule_image] *)
  | ev_clear (img : image_ptr)                     (* [image->clear()] off the worker *)
  | ev_request_stop                                (* [worker_thread_.request_stop()] *)
  | ev_worker (load_ok : bool).                    (* the worker thread advances *)

Section run.
Variable sort_greater : list prio_shared_image → list prio_shared_image.
Variable operator_bool : image_state → bool.

Definition step (e : event) (l : loader) : loader :=
  match e with
  | ev_schedule img priority =>
      Loader (schedule_image sort_greater img priority (sched l))
             (images l) (stop_requested l) (pc l) (worker_calls l)
  | ev_unschedule img =>
      Loader (unschedule_image img (sched l))
             (images l) (stop_requested l) (pc l) (worker_calls l)
  | ev_clear img =>
      Loader (sched l) (set_image img unloaded (images l))
             (stop_requested l) (pc l) (worker_calls l)
  | ev_request_stop =>
      Loader (sched l) (images l) true (pc l) (worker_calls l)
  | ev_worker load_ok => work_loop_step operator_bool load_ok l
  end.

Definition run (es : list event) (l : loader) : loader :=
  foldl (λ l e, step e l) l es.

(** [image_source::unload_image] *)
Definition unload_image (img : image_ptr) (l : loader) : loader :=
  step (ev_clear img) (step (ev_unschedule img) l).
End run.

(** The worker holds [img] between dequeuing it and the check after [load()]. *)
Definition in_flight (img : image_ptr) (l : loader) : Prop :=
  pc l = in_load img ∨ pc l = after_load img.

#[global] Instance in_flight_dec img l : Decision (in_flight img l).
Proof. unfold in_flight. apply _. Defined.

(** What stays true of an image while nobody schedules it: it is not
    queued, and as long as the worker holds it, it is marked. *)
Definition marked_in_flight (img : image_ptr) (l : loader) : Prop :=
  (img ∉ queued_images (sched l)) ∧
  (in_flight img l → img ∈ unscheduled_images_ (sched l)).

Definition is_schedule_of (img : image_ptr) (e : event) : bool :=
  match e with
  | ev_schedule j _ => bool_decide (j = img)
  | _ => false
  end.

(** Events of the threads other than the worker. *)
Definition is_client (e : event) : bool :=
  match e with
  | ev_worker _ => false
  | _ => true
  end.

(** The loader before anything is scheduled, the worker at its loop head. *)
Definition idle_loader : loader :=
  Loader empty_scheduler (λ _, unloaded) false at_loop_head [].

(** An [operator bool] to run the model with: true on a loaded image. *)
Definition is_loaded (st : image_state) : bool := bool_decide (st = loaded).

(** *** The image source: cache, watcher and filesystem events *)

Abbreviation path := string (only parsing).

(** [image_change], as the code names its values. *)
Module image_change.
Inductive t : Type := next | previous | reload | replace_deleted.
End image_change.

(** Modelled from the spec: [fs_watcher::action] (fs-watcher.hpp is not among
    the sources) has the values created, modified and removed. *)
Module action.
Inductive t : Type := created | modified | removed.

#[global] Instance eq_dec : EqDecision t.
Proof. solve_decision. Defined.
End action.

(** The two callbacks the cache is constructed with. *)
Inductive cache_callback : Type :=
  | cb_schedule (img : image_ptr) (prio : N)
  | cb_unload (img : image_ptr) (current : bool).

(** The image cache (image-cache.hpp is not among the sources) is taken as
    a parameter: a type with the operations [image_source] calls. Each
    mutating operation returns the callbacks it issued, in order. *)
Class ImageCache (cache : Type) : Type := {
  cache_current            : cache → option image_ptr;
  cache_add                : path → cache → cache * list cache_callback;
  cache_remove             : path → cache → cache * list cache_callback;
  cache_set                : list path → cache → cache * list cache_callback;
  cache_next               : cache → cache * list cache_callback;
  cache_previous           : cache → cache * list cache_callback;
  cache_invalidate_current : cache → cache * list cache_callback;
  cache_invalidate_all     : cache → cache * list cache_callback
}.

(** Modelled from the spec: the filesystem watcher (fs-watcher.hpp is not
    among the sources) observes a set of paths; [unwatch()] empties it and
    [watch(paths)] adds [paths] to it. The calls received are logged. *)
Inductive watcher_call : Type :=
  | called_unwatch
  | called_watch (files : list path).

Record fs_watcher : Type := FsWatcher {
  watched       : list path;
  watcher_calls : list watcher_call
}.

Definition unwatch (w : fs_watcher) : fs_watcher :=
  FsWatcher [] (watcher_calls w ++ [called_unwatch]).

Definition watch (files : list path) (w : fs_watcher) : fs_watcher :=
  FsWatcher (watched w ++ files) (watcher_calls w ++ [called_watch files]).

(** What [std::filesystem] answers; the order is [path]'s own comparison. *)
Record filesystem : Type := Filesystem {
  is_directory       : path → bool;
  directory_iterator : path → list path;
  absolute           : path → path;
  parent_path        : path → path;
  path_greater       : path → path → bool
}.

(** [normalize_names] *)
Definition normalize_names (fs : filesystem) (files : list path) : list path :=
  match files with
  | [] => ["."]
  | [f] =>
      let abs := absolute fs f in
      if is_directory fs abs then files else files ++ [parent_path fs abs]
  | _ => files
  end.

Fixpoint insert_greater (gt : path → path → bool) (x : path) (l : list path) : list path :=
  match l with
  | [] => [x]
  | y :: l' => if gt y x then y :: insert_greater gt x l' else x :: l
  end.

(** [std::ranges::sort(files, std::ranges::greater{})] on paths, whose
    order is total: the result does not depend on the algorithm. *)
Definition sort_paths_greater (gt : path → path → bool) (l : list path) : list path :=
  foldr (insert_greater gt) [] l.

(** [std::ranges::unique] followed by [erase]: runs of equal paths collapse. *)
Fixpoint unique (l : list path) : list path :=
  match l with
  | [] => []
  | x :: l' =>
      match l' with
      | y :: _ => if decide (x = y) then unique l' else x :: unique l'
      | [] => [x]
      end
  end.

(** [list_files] *)
Definition list_files (fs : filesystem) (initializer : list path) : list path :=
  let files :=
    foldl (λ files p,
             if is_directory fs p then
               foldl (λ files it,
                        if is_directory fs it then files
                        else files ++ [absolute fs it])
                     (files ++ [p]) (directory_iterator fs p)
             else files ++ [absolute fs p])
          [] initializer in
  unique (sort_paths_greater (path_greater fs) files).

Section image_source.
Context {cache : Type} `{!ImageCache cache}.
Variable sort_greater : list prio_shared_image → list prio_shared_image.
Variable operator_bool : image_state → bool.
(** [image::path()] *)
Variable image_path : image_ptr → path.
Variable fs : filesystem.
(** [global_config().watch_fs] *)
Variable watch_fs : bool.

Record image_source : Type := ImageSource {
  cache_              : cache;
  startup_files_      : list path;
  backup_             : option image_ptr;
  change_             : image_change.t;
  filesystem_watcher_ : fs_watcher;
  loader_             : loader
}.

(** The lambdas handed to [cache_] in the constructor. *)
Definition run_callback (cb : cache_callback) (l : loader) : loader :=
  match cb with
  | cb_schedule img prio => step sort_greater operator_bool (ev_schedule img prio) l
  | cb_unload img _ => unload_image sort_greater operator_bool img l
  end.

Definition run_callbacks (cbs : list cache_callback) (l : loader) : loader :=
  foldl (λ l cb, run_callback cb l) l cbs.

(** A call [cache_.op(...)] on the source. *)
Definition on_cache (op : cache → cache * list cache_callback)
    (src : image_source) : image_source :=
  let '(c, cbs) := op (cache_ src) in
  ImageSource c (startup_files_ src) (backup_ src) (change_ src)
              (filesystem_watcher_ src) (run_callbacks cbs (loader_ src)).

(** [backup_ = cache_.current(); change_ = kind;] *)
Definition record_change (kind : image_change.t) (src : image_source) : image_source :=
  ImageSource (cache_ src) (startup_files_ src) (cache_current (cache_ src)) kind
              (filesystem_watcher_ src) (loader_ src).

Definition next_image (src : image_source) : image_source :=
  on_cache cache_next (record_change image_change.next src).

Definition previous_image (src : image_source) : image_source :=
  on_cache cache_previous (record_change image_change.previous src).

Definition reload_current (src : image_source) : image_source :=
  on_cache cache_invalidate_current (record_change image_change.reload src).

(** [image_source::populate_cache] *)
Definition populate_cache (src : image_source) : image_source :=
  let files := list_files fs (startup_files_ src) in
  let src := on_cache (cache_set files) src in
  if watch_fs then
    ImageSource (cache_ src) (startup_files_ src) (backup_ src) (change_ src)
                (watch files (unwatch (filesystem_watcher_ src))) (loader_ src)
  else src.

(** [image_source::reload_file_list] *)
Definition reload_file_list (src : image_source) : image_source :=
  populate_cache
    (on_cache cache_invalidate_all (record_change image_change.reload src)).

(** The body of the constructor, from the members as initialised. *)
Definition construct (fnames : list path) (src : image_source) : image_source :=
  let src := ImageSource (cache_ src) (normalize_names fs fnames) (backup_ src)
                         (change_ src) (filesystem_watcher_ src) (loader_ src) in
  populate_cache
    (match startup_files_ src with
     | f :: _ => on_cache (cache_add (absolute fs f)) src
     | [] => src
     end).

(** [image_source::current] *)
Definition current (src : image_source) : option image_ptr :=
  cache_current (cache_ src).

(** [is_current] *)
Definition is_current (p : path) (image : option image_ptr) : bool :=
  match image with
  | Some img => bool_decide (image_path img = p)
  | None => false
  end.

(** [image_source::file_event] *)
Definition file_event (p : path) (act : action.t) (src : image_source) : image_source :=
  let is_cur := is_current p (cache_current (cache_ src)) in
  if decide (act = action.removed) then
    on_cache (cache_remove p)
      (if is_cur then record_change image_change.replace_deleted src else src)
  else if is_cur then
    on_cache cache_invalidate_current (record_change image_change.reload src)
  else
    on_cache (cache_add p) src.
End image_source.

Arguments image_source : clear implicits.

(** A cache to run the source with: it remembers the calls it received,
    keeps the current image it was given and, on [invalidate_current],
    schedules that image at priority 0. *)
Inductive cache_op : Type :=
  | op_add (p : path)
  | op_remove (p : path)
  | op_set (files : list path)
  | op_next
  | op_previous
  | op_invalidate_current
  | op_invalidate_all.

Record probe_cache : Type := ProbeCache {
  probe_current : option image_ptr;
  probe_ops     : list cache_op
}.

Definition probe (op : cache_op) (cbs : list cache_callback) (c : probe_cache)
  : probe_cache * list cache_callback :=
  (ProbeCache (probe_current c) (probe_ops c ++ [op]), cbs).

#[global] Instance probe_cache_ImageCache : ImageCache probe_cache := {|
  cache_current := probe_current;
  cache_add p := probe (op_add p) [];
  cache_remove p := probe (op_remove p) [];
  cache_set files := probe (op_set files) [];
  cache_next := probe op_next [];
  cache_previous := probe op_previous [];
  cache_invalidate_current c :=
    probe op_invalidate_current
      (match probe_current c with
       | Some img => [cb_schedule img 0]
       | None => []
       end) c;
  cache_invalidate_all := probe op_invalidate_all []
|}.

(** A filesystem to run the source with: one directory holding two files. *)
Definition pics_fs : filesystem :=
  Filesystem
    (λ p, bool_decide (p = "/pics"))
    (λ p, if bool_decide (p = "/pics") then ["/pics/a.png"; "/pics/b.png"] else [])
    id
    (λ _, "/pics")
    (λ a b, String.ltb b a).

(** Image 1 is the image of "/pics/a.png", image 2 that of "/pics/b.png". *)
Definition pics_path (img : image_ptr) : path :=
  match img with
  | 1 => "/pics/a.png"
  | 2 => "/pics/b.png"
  | _ => ""
  end.

(** A source that shows image [current] and watches nothing yet. *)
Definition probe_source (current : option image_ptr) : image_source probe_cache :=
  ImageSource (ProbeCache current []) ["/pics"] None image_change.next
              (FsWatcher [] []) idle_loader.

(** *** Invariant of the scheduler *)

Record scheduler_inv (s : scheduler) : Prop := SchedulerInv {
  inv_sorted      : Sorted prio_ge (scheduled_images_ s);
  inv_queue_nodup : NoDup (queued_images s);
  inv_drop_nodup  : NoDup (unscheduled_images_ s);
  inv_disjoint    : ∀ img, img ∈ queued_images s → img ∉ unscheduled_images_ s
}.

(** *** Readings of the specification, to be compared with the code *)

(** "[next_scheduled_image] returns a pending image whose priority is the
    maximum over all queued entries, or the empty pointer and an unchanged
    queue when nothing is queued." *)
Definition pops_greatest (s : scheduler) : Prop :=
  match next_scheduled_image s with
  | (Some img, _) =>
      ∃ p, (p, img) ∈ scheduled_images_ s ∧
           ∀ e, e ∈ scheduled_images_ s → (e.1 ≤ p)%N
  | (None, s') => scheduled_images_ s = [] ∧ s' = s
  end.

(** "[schedule_image] never changes the relative order of the other
    entries of equal priority." *)
Definition keeps_equal_priority_order
    (sort_greater : list prio_shared_image → list prio_shared_image)
    (image : image_ptr) (priority : N) (s : scheduler) : Prop :=
  ∀ p, others_at p image (scheduled_images_ (schedule_image sort_greater image priority s))
       = others_at p image (scheduled_images_ s).

(** "An image unscheduled while its load is in flight is unloaded once the
    worker has made its check after [load()]." [l] is the state in which
    [unschedule_image] is called, [es] what happens until the worker stands
    before its check. *)
Definition dropped_after_load
    (sort_greater : list prio_shared_image → list prio_shared_image)
    (operator_bool : image_state → bool)
    (l : loader) (img : image_ptr) (es : list event) : Prop :=
  in_flight img l →
  let l' := run sort_greater operator_bool es
              (step sort_greater operator_bool (ev_unschedule img) l) in
  pc l' = after_load img →
  images (work_loop_step operator_bool true l') img = unloaded.

(** "Whenever [populate_cache] repopulates the file list, the watcher
    watches exactly the newly listed files." *)
Definition rewatches_listed_files {cache : Type} `{!ImageCache cache}
    (sort_greater : list prio_shared_image → list prio_shared_image)
    (operator_bool : image_state → bool) (fs : filesystem) (watch_fs : bool)
    (src : image_source cache) : Prop :=
  watched (filesystem_watcher_
             (populate_cache sort_greater operator_bool fs watch_fs src))
  = list_files fs (startup_files_ src).

(** [u'] is [u] without one occurrence of [image], if it has one. *)
Definition dropped_from (image : image_ptr) (u u' : list image_ptr) : Prop :=
  (image ∉ u → u' = u) ∧ (image ∈ u → image :: u' ≡ₚ u).

(** *** Repeated calls *)

(** [n] calls of [next_scheduled_image] in a row: the pointers returned, in
    order, and the scheduler left behind. *)
Fixpoint next_scheduled_images (n : nat) (s : scheduler)
  : list (option image_ptr) * scheduler :=
  match n with
  | 0 => ([], s)
  | S n' =>
      let '(r, s') := next_scheduled_image s in
      let '(rs, s'') := next_scheduled_images n' s' in
      (r :: rs, s'')
  end.

(** The worker called [load()]. *)
Definition is_load_call (c : image_call) : bool :=
  match c with
  | called_load _ => true
  | called_clear _ => false
  end.

(** *** The worker loop with its stop test apart

    [work_loop_step] takes the test [!stoken.stop_requested()] of the inner
    loop (l.171) and the call of [next_scheduled_image()] with the start of
    [load()] (l.172-176) in one step. The stop token is read without a
    lock, so the other threads can act between the two. Here the test is a
    step of its own: [past_stop_test] holds from a test that found no stop
    request until [next_scheduled_image()] is called. *)
Record loop_state : Type := LoopState {
  shared         : loader;
  past_stop_test : bool
}.

Section work_loop_apart.
Variable sort_greater : list prio_shared_image → list prio_shared_image.
Variable operator_bool : image_state → bool.

(** One step of the worker thread. At the loop head it is either the test
    of l.171 or, past the test, l.172-176; everywhere else it is the step
    of [work_loop_step]. *)
Definition work_loop_apart_step (load_ok : bool) (w : loop_state) : loop_state :=
  let l := shared w in
  match pc l with
  | at_loop_head =>
      if past_stop_test w then
        match next_scheduled_image (sched l) with
        | (None, s') =>
            LoopState
              (Loader s' (images l) (stop_requested l) at_stop_check (worker_calls l))
              false
        | (Some img, s') =>
            if operator_bool (images l img) then
              LoopState
                (Loader s' (images l) (stop_requested l) at_loop_head (worker_calls l))
                false
            else
              LoopState
                (Loader s' (set_image img loading (images l)) (stop_requested l)
                        (in_load img) (worker_calls l ++ [called_load img]))
                false
        end
      else if stop_requested l then
        LoopState
          (Loader (sched l) (images l) (stop_requested l) at_stop_check (worker_calls l))
          false
      else LoopState l true
  | _ => LoopState (work_loop_step operator_bool load_ok l) false
  end.

(** The other threads act on the shared state as in [step] and leave the
    worker where it is. *)
Definition apart_step (e : event) (w : loop_state) : loop_state :=
  match e with
  | ev_worker load_ok => work_loop_apart_step load_ok w
  | _ => LoopState (step sort_greater operator_bool e (shared w)) (past_stop_test w)
  end.

Definition apart_run (es : list event) (w : loop_state) : loop_state :=
  foldl (λ w e, apart_step e w) w es.
End work_loop_apart.

(** The [load()] calls the worker has made. *)
Definition load_calls (w : loop_state) : list image_call :=
  filter (λ c, is_load_call c = true) (worker_calls (shared w)).

(** How many steps of the worker thread lead from a place in [work_loop]
    to its end once a stop is requested. Past the stop test the worker may
    still dequeue an image and load it. *)
Definition steps_to_exit (w : loop_state) : nat :=
  match pc (shared w) with
  | at_loop_head => if past_stop_test w then 5 else 2
  | in_load _ => 4
  | after_load _ => 3
  | waiting => 3
  | at_stop_check => 1
  | exited => 0
  end.

(** What the events [es] so far account for in a loader: every queued image
    and every [load()] goes back to a [schedule_image] among [es], the image
    the worker holds has seen its [load()], and so has every image the worker
    called [clear()] on. *)
Definition loads_accounted (es : list event) (l : loader) : Prop :=
  (∀ img, img ∈ queued_images (sched l) → ∃ p, ev_schedule img p ∈ es) ∧
  (∀ img, called_load img ∈ worker_calls l → ∃ p, ev_schedule img p ∈ es) ∧
  (∀ img, in_flight img l → called_load img ∈ worker_calls l) ∧
  (∀ img, called_clear img ∈ worker_calls l → called_load img ∈ worker_calls l).

(** What an operation of the image source leaves of its loader: a
    well-formed scheduler, and the worker where and as it was. *)
Definition loader_kept {cache : Type} (src src' : image_source cache) : Prop :=
  scheduler_inv (sched (loader_ src')) ∧
  pc (loader_ src') = pc (loader_ src) ∧
  worker_calls (loader_ src') = worker_calls (loader_ src) ∧
  stop_requested (loader_ src') = stop_requested (loader_ src).

(** *** The file listing (file-listing.cpp) *)

(** [listing_mode], with the values [satisfies] switches over. *)
Module listing_mode.
Inductive t : Type := always | exists_ | supported.
End listing_mode.

(** [file_listing::startup_mode] *)
Module startup_mode.
Inductive t : Type := empty | single_dir | single_file | multi.

#[global] Instance eq_dec : EqDecision t.
Proof. solve_decision. Defined.
End startup_mode.

(** What [satisfies] asks beyond [std::filesystem]: [std::filesystem::exists]
    and whether [pixglot::determine_codec] finds a codec. *)
Record listing_fs : Type := ListingFs {
  base_fs         : filesystem;
  path_exists     : path → bool;
  determine_codec : path → bool
}.

(** The fields of [global_config()] that [file_listing] reads. *)
Record listing_config : Type := ListingConfig {
  fl_single_dir             : listing_mode.t;
  fl_single_file            : listing_mode.t;
  fl_single_file_parent     : bool;
  fl_single_file_parent_dir : listing_mode.t;
  fl_multi_dir              : listing_mode.t;
  fl_multi_file             : listing_mode.t
}.

(** [file_listing::fs_info] *)
Record fs_info : Type := FsInfo {
  info_path : path;
  info_mode : listing_mode.t
}.

(** [file_listing]. [callback_] tells whether the [std::function] holds a
    target; [invoked] lists the calls made through it. *)
Record file_listing : Type := FileListing {
  initial_files_      : list path;
  callback_           : bool;
  file_list_          : list fs_info;
  demotion_candidate_ : option path;
  invoked             : list (path * action.t)
}.

Section file_listing.
Variable lfs : listing_fs.
Variable config : listing_config.

(** The constructor. *)
Definition new_file_listing (callback : bool) (initial_files : list path) : file_listing :=
  FileListing (absolute (base_fs lfs) <$> initial_files) callback [] None [].

(** [initial_files_.front()], called on a vector known to hold a path. *)
Definition front (files : list path) : path := default "" (head files).

(** [file_listing::determine_startup_mode] *)
Definition determine_startup_mode (fl : file_listing) : startup_mode.t :=
  match initial_files_ fl with
  | [] => startup_mode.empty
  | [f] =>
      if is_directory (base_fs lfs) f then startup_mode.single_dir
      else startup_mode.single_file
  | _ => startup_mode.multi
  end.

(** [satisfies] *)
Definition satisfies (p : path) (mode : listing_mode.t) : bool :=
  match mode with
  | listing_mode.always => true
  | listing_mode.exists_ => path_exists lfs p
  | listing_mode.supported => determine_codec lfs p
  end.

(** The loop of [find_file] over the entries of a directory. *)
Fixpoint find_file_in (entries : list path) (mode : listing_mode.t) : option path :=
  match entries with
  | [] => None
  | p :: entries' =>
      if negb (is_directory (base_fs lfs) p) && satisfies p mode then Some p
      else find_file_in entries' mode
  end.

(** [find_file] *)
Definition find_file (dir : path) (mode : listing_mode.t) : option path :=
  find_file_in (directory_iterator (base_fs lfs) dir) mode.

(** [file_listing::fs_info::satisfied] *)
Definition satisfied (item : fs_info) : bool :=
  satisfies (info_path item) (info_mode item).

(** The loop of [initial_file] in [startup_mode::multi]. *)
Fixpoint initial_file_multi (files : list path) : option path :=
  match files with
  | [] => None
  | p :: files' =>
      if is_directory (base_fs lfs) p then
        match find_file p (fl_multi_dir config) with
        | Some init_file => Some init_file
        | None => initial_file_multi files'
        end
      else if satisfies p (fl_multi_file config) then Some p
      else initial_file_multi files'
  end.

(** [file_listing::initial_file] *)
Definition initial_file (fl : file_listing) : option path :=
  match determine_startup_mode fl with
  | startup_mode.single_dir =>
      find_file (front (initial_files_ fl)) (fl_single_dir config)
  | startup_mode.single_file =>
      if satisfies (front (initial_files_ fl)) (fl_single_file config) then
        Some (front (initial_files_ fl))
      else if negb (fl_single_file_parent config) then None
      else find_file (parent_path (base_fs lfs) (front (initial_files_ fl)))
                     (fl_single_file_parent_dir config)
  | startup_mode.multi => initial_file_multi (initial_files_ fl)
  | startup_mode.empty => None
  end.

(** [file_listing::clear] *)
Definition clear (fl : file_listing) : file_listing :=
  FileListing (initial_files_ fl) (callback_ fl) [] None (invoked fl).

(** [invoke_save(callback_, path, action)] *)
Definition invoke_save (p : path) (act : action.t) (fl : file_listing) : file_listing :=
  if callback_ fl then
    FileListing (initial_files_ fl) (callback_ fl) (file_list_ fl)
                (demotion_candidate_ fl) (invoked fl ++ [(p, act)])
  else fl.

(** [file_listing::demote_initial_file] *)
Definition demote_initial_file (fl : file_listing) : file_listing :=
  match demotion_candidate_ fl with
  | None => fl
  | Some candidate =>
      match list_find (λ item, info_path item = candidate) (file_list_ fl) with
      | None => fl
      | Some (i, item) =>
          let was_listed := satisfied item in
          let item' := FsInfo (info_path item) (fl_single_file_parent_dir config) in
          let fl' := FileListing (initial_files_ fl) (callback_ fl)
                                 (<[i := item']> (file_list_ fl))
                                 (demotion_candidate_ fl) (invoked fl) in
          if negb (satisfied item') && was_listed then
            invoke_save (info_path item') action.removed fl'
          else fl'
      end
  end.

(** [file_listing::populate_item]: the list [lst] and the listing afterwards. *)
Definition populate_item (lst : list path) (p : path) (mode : listing_mode.t)
    (fl : file_listing) : list path * file_listing :=
  let item := FsInfo (absolute (base_fs lfs) p) mode in
  (if satisfied item then lst ++ [info_path item] else lst,
   FileListing (initial_files_ fl) (callback_ fl) (file_list_ fl ++ [item])
               (demotion_candidate_ fl) (invoked fl)).

(** [file_listing::populate_directory] *)
Definition populate_directory (lst : list path) (dir : path) (mode : listing_mode.t)
    (fl : file_listing) : list path * file_listing :=
  foldl (λ '(lst, fl) p,
           if is_directory (base_fs lfs) p then (lst, fl)
           else populate_item lst p mode fl)
        (lst, fl) (directory_iterator (base_fs lfs) dir).

(** [file_listing::populate] *)
Definition populate (fl : file_listing) : list path * file_listing :=
  match determine_startup_mode fl with
  | startup_mode.single_dir =>
      populate_directory [] (front (initial_files_ fl)) (fl_single_dir config) fl
  | startup_mode.multi =>
      foldl (λ '(lst, fl) p,
               if is_directory (base_fs lfs) p then
                 populate_directory lst p (fl_multi_dir config) fl
               else populate_item lst p (fl_multi_file config) fl)
            ([], fl) (initial_files_ fl)
  | startup_mode.single_file =>
      let major := front (initial_files_ fl) in
      let '(lst, fl') :=
        foldl (λ '(lst, fl) p,
                 if is_directory (base_fs lfs) p then (lst, fl)
                 else populate_item lst p
                        (if decide (p = major) then fl_single_file config
                         else fl_single_file_parent_dir config) fl)
              ([], fl) (directory_iterator (base_fs lfs) (parent_path (base_fs lfs) major)) in
      (lst, FileListing (initial_files_ fl') (callback_ fl') (file_list_ fl')
                         (Some major) (invoked fl'))
  | startup_mode.empty => ([], fl)
  end.
End file_listing.

(** *** What [populate] visits *)

Section populated_items.
Variable lfs : listing_fs.
Variable config : listing_config.

(** One item for each entry that is not a directory, with the mode
    [mode_of] gives it. *)
Definition entry_items (mode_of : path → listing_mode.t) (entries : list path)
  : list fs_info :=
  (λ p, FsInfo (absolute (base_fs lfs) p) (mode_of p))
    <$> filter (λ p, is_directory (base_fs lfs) p = false) entries.

(** The items [populate] has to append to [file_list_], in order. *)
Definition populated_items (fl : file_listing) : list fs_info :=
  match determine_startup_mode lfs fl with
  | startup_mode.single_dir =>
      entry_items (λ _, fl_single_dir config)
        (directory_iterator (base_fs lfs) (front (initial_files_ fl)))
  | startup_mode.multi =>
      mjoin ((λ p, if is_directory (base_fs lfs) p
                   then entry_items (λ _, fl_multi_dir config)
                          (directory_iterator (base_fs lfs) p)
                   else [FsInfo (absolute (base_fs lfs) p) (fl_multi_file config)])
               <$> initial_files_ fl)
  | startup_mode.single_file =>
      entry_items (λ p, if decide (p = front (initial_files_ fl))
                        then fl_single_file config
                        else fl_single_file_parent_dir config)
        (directory_iterator (base_fs lfs)
           (parent_path (base_fs lfs) (front (initial_files_ fl))))
  | startup_mode.empty => []
  end.

(** A listing with [items] appended to [file_list_]. *)
Definition with_items (items : list fs_info) (fl : file_listing) : file_listing :=
  FileListing (initial_files_ fl) (callback_ fl) (file_list_ fl ++ items)
              (demotion_candidate_ fl) (invoked fl).
End populated_items.

(** A filesystem and a configuration to run the listing with: both files
    of "/pics" exist, a codec is found for "/pics/a.png" only. *)
Definition pics_lfs : listing_fs :=
  ListingFs pics_fs
    (λ p, bool_decide (p ∈ ["/pics"; "/pics/a.png"; "/pics/b.png"]))
    (λ p, bool_decide (p = "/pics/a.png")).

Definition pics_config : listing_config :=
  ListingConfig listing_mode.supported listing_mode.always true
                listing_mode.supported listing_mode.supported listing_mode.exists_.

(** An event of another thread that neither unschedules nor clears [img]. *)
Definition leaves_alone (img : image_ptr) (e : event) : bool :=
  match e with
  | ev_worker _ => false
  | ev_unschedule j => bool_decide (j ≠ img)
  | ev_clear j => bool_decide (j ≠ img)
  | _ => true
  end.

(** ** Part II: properties *)

(** *** Vectors *)

Section vector_facts.
Context {A : Type}.
Implicit Types (v : list A) (x : A) (j : nat).

Lemma take_pred_length_snoc v x : take (pred (length (v ++ [x]))) (v ++ [x]) = v.
Proof.
  rewrite length_app; simpl.
  replace (pred (length v + 1)) with (length v) by lia.
  apply take_app_length.
Qed.

Lemma swap_pop_back_Permutation v j x :
  v !! j = Some x → x :: swap_pop_back j v ≡ₚ v.
Proof.
  intros Hj. unfold swap_pop_back.
  destruct (last v) as [b|] eqn:Hlast.
  - apply last_Some in Hlast as [w ->].
    rewrite length_app; simpl.
    replace (pred (length w + 1)) with (length w) by lia.
    destruct (decide (j < length w)) as [Hlt|Hge].
    + rewrite insert_app_l by done.
      rewrite take_app_length' by (by rewrite length_insert).
      rewrite lookup_app_l in Hj by done.
      rewrite (insert_take_drop w j b Hlt).
      rewrite <- (take_drop_middle w j x Hj) at 3.
      rewrite <- Permutation_cons_append.
      rewrite <- !Permutation_middle.
      apply Permutation_swap.
    + assert (j = length w) as ->.
      { apply lookup_lt_Some in Hj. rewrite length_app in Hj; simpl in Hj. lia. }
      rewrite list_lookup_middle in Hj by done. simplify_eq.
      rewrite take_insert_ge, take_app_length by lia.
      by rewrite <- Permutation_cons_append.
  - apply last_None in Hlast as ->. by rewrite lookup_nil in Hj.
Qed.
End vector_facts.

(** *** The order on queue entries and sorted queues *)

#[global] Instance prio_ge_trans : Transitive prio_ge.
Proof. intros a b c. unfold prio_ge. lia. Qed.

#[global] Instance prio_ge_total : Total prio_ge.
Proof. intros a b. unfold prio_ge. lia. Qed.

Lemma merge_sort_greater_conforming : conforming_sort merge_sort_greater.
Proof.
  intros q. split.
  - apply merge_sort_Permutation.
  - apply (Sorted_merge_sort prio_ge).
Qed.

Lemma StronglySorted_sublist {A} (R : relation A) (l k : list A) :
  k `sublist_of` l → StronglySorted R l → StronglySorted R k.
Proof.
  induction 1 as [|x k l Hkl IH|x k l Hkl IH]; intros Hl.
  - constructor.
  - apply StronglySorted_inv in Hl as [Hl Hx]. constructor; [by apply IH|].
    rewrite Forall_forall in Hx |- *. intros y Hy. apply Hx.
    by eapply elem_of_sublist.
  - apply StronglySorted_inv in Hl as [Hl _]. by apply IH.
Qed.

Lemma Sorted_prio_ge_sublist (q k : list prio_shared_image) :
  k `sublist_of` q → Sorted prio_ge q → Sorted prio_ge k.
Proof.
  intros Hk Hq. apply StronglySorted_Sorted.
  eapply StronglySorted_sublist; [done|]. by apply (Sorted_StronglySorted _).
Qed.

(** In a queue sorted by [std::ranges::greater], no entry has a smaller
    priority than the one at the back. *)
Lemma sorted_back_least (q : list prio_shared_image) (e x : prio_shared_image) :
  Sorted prio_ge (q ++ [e]) → x ∈ q ++ [e] → (e.1 ≤ x.1)%N.
Proof.
  intros Hs%(Sorted_StronglySorted _) Hx.
  apply elem_of_app in Hx as [Hx|Hx%list_elem_of_singleton].
  - apply StronglySorted_app in Hs as (Hall & _ & _).
    apply (Hall x e); [done|]. by apply list_elem_of_singleton.
  - by subst.
Qed.

(** *** What the two [find]s return *)

Lemma find_scheduled_None image q :
  find_scheduled image q = None ↔ image ∉ q.*2.
Proof.
  unfold find_scheduled. rewrite list_find_None, Forall_forall. split.
  - intros Hq (e & -> & He)%list_elem_of_fmap. by apply (Hq e).
  - intros Hq e He <-. apply Hq, list_elem_of_fmap. eauto.
Qed.

Lemma find_scheduled_Some image q i e :
  find_scheduled image q = Some (i, e) → q !! i = Some e ∧ e.2 = image.
Proof. unfold find_scheduled. intros (? & ? & _)%list_find_Some. done. Qed.

Lemma find_scheduled_elem_of image q :
  image ∈ q.*2 → ∃ i p, find_scheduled image q = Some (i, (p, image)).
Proof.
  intros Hin. destruct (find_scheduled image q) as [[i [p j]]|] eqn:Hf.
  - apply find_scheduled_Some in Hf as Hf'. destruct Hf' as [_ Hj].
    simpl in Hj. subst. eauto.
  - by apply find_scheduled_None in Hf.
Qed.

Lemma find_unscheduled_None image u :
  find_unscheduled image u = None ↔ image ∉ u.
Proof.
  unfold find_unscheduled. rewrite list_find_None, Forall_forall. split.
  - intros Hu Hin. by apply (Hu image).
  - intros Hu x Hx ->. done.
Qed.

Lemma find_unscheduled_Some image u j x :
  find_unscheduled image u = Some (j, x) → u !! j = Some image.
Proof. unfold find_unscheduled. intros (? & -> & _)%list_find_Some. done. Qed.

(** *** The purge of the unscheduled set in [schedule_image] *)

Lemma purge_absent image u : image ∉ u → purge image u = u.
Proof.
  intros Hu%find_unscheduled_None. unfold purge. by rewrite Hu.
Qed.

Lemma purge_present image u : image ∈ u → image :: purge image u ≡ₚ u.
Proof.
  intros Hu. unfold purge.
  destruct (find_unscheduled image u) as [[j x]|] eqn:Hf.
  - apply swap_pop_back_Permutation. by eapply find_unscheduled_Some.
  - by apply find_unscheduled_None in Hf.
Qed.

Lemma purge_subseteq image u x : x ∈ purge image u → x ∈ u.
Proof.
  destruct (decide (image ∈ u)) as [Hu|Hu].
  - intros Hx. rewrite <- (purge_present image u Hu). by right.
  - by rewrite purge_absent.
Qed.

Lemma purge_other image u x : x ≠ image → x ∈ u → x ∈ purge image u.
Proof.
  intros Hne Hx. destruct (decide (image ∈ u)) as [Hu|Hu].
  - rewrite <- (purge_present image u Hu) in Hx.
    by apply elem_of_cons in Hx as [?|?].
  - by rewrite purge_absent.
Qed.

Lemma purge_NoDup image u : NoDup u → NoDup (purge image u) ∧ image ∉ purge image u.
Proof.
  intros Hnd. destruct (decide (image ∈ u)) as [Hu|Hu].
  - rewrite <- (purge_present image u Hu) in Hnd.
    apply NoDup_cons in Hnd. tauto.
  - by rewrite purge_absent.
Qed.

(** *** The scheduler operations *)

Section scheduler_facts.
Variable sort_greater : list prio_shared_image → list prio_shared_image.
Hypothesis sort_conforms : conforming_sort sort_greater.

Implicit Types (s : scheduler) (image img : image_ptr) (priority p : N).

Lemma purge_dropped_from image u : dropped_from image u (purge image u).
Proof. split; [apply purge_absent | apply purge_present]. Qed.

(** The three ways through [schedule_image]. *)
Lemma schedule_image_fresh image priority s :
  image ∉ queued_images s →
  schedule_image sort_greater image priority s =
  sort_and_purge sort_greater image
    (scheduled_images_ s ++ [(priority, image)]) (unscheduled_images_ s).
Proof.
  intros Hq%find_scheduled_None. unfold schedule_image. by rewrite Hq.
Qed.

Lemma schedule_image_changed image priority s i p :
  find_scheduled image (scheduled_images_ s) = Some (i, (p, image)) →
  p ≠ priority →
  schedule_image sort_greater image priority s =
  sort_and_purge sort_greater image
    (<[i := (priority, image)]> (scheduled_images_ s)) (unscheduled_images_ s).
Proof.
  intros Hf Hp. unfold schedule_image. rewrite Hf; simpl.
  by rewrite decide_True.
Qed.

Lemma schedule_image_same image priority s i :
  find_scheduled image (scheduled_images_ s) = Some (i, (priority, image)) →
  schedule_image sort_greater image priority s = s.
Proof.
  intros Hf. unfold schedule_image. rewrite Hf; simpl.
  rewrite decide_False; [done|]. by intros [].
Qed.

Lemma insert_queued_images (q : list prio_shared_image) i p priority image :
  q !! i = Some (p, image) → (<[i := (priority, image)]> q).*2 = q.*2.
Proof.
  intros Hi. rewrite list_fmap_insert; simpl.
  apply list_insert_id. by rewrite list_lookup_fmap, Hi.
Qed.

(** The images queued after [schedule_image]: those before, and [image]. *)
Lemma schedule_image_queued image priority s :
  queued_images (schedule_image sort_greater image priority s) ≡ₚ
  if decide (image ∈ queued_images s) then queued_images s
  else image :: queued_images s.
Proof.
  unfold queued_images. case_decide as Hin.
  - apply find_scheduled_elem_of in Hin as (i & p & Hf).
    destruct (decide (p = priority)) as [->|Hp].
    + by rewrite (schedule_image_same _ _ _ _ Hf).
    + rewrite (schedule_image_changed _ _ _ _ _ Hf Hp); simpl.
      rewrite (proj1 (sort_conforms _)).
      apply find_scheduled_Some in Hf as [Hi _].
      by rewrite (insert_queued_images _ _ _ _ _ Hi).
  - rewrite (schedule_image_fresh _ _ _ Hin); simpl.
    rewrite (proj1 (sort_conforms _)), fmap_app; simpl.
    by rewrite <- Permutation_cons_append.
Qed.

Lemma schedule_image_unscheduled image priority s :
  unscheduled_images_ (schedule_image sort_greater image priority s) =
  unscheduled_images_ s ∨
  unscheduled_images_ (schedule_image sort_greater image priority s) =
  purge image (unscheduled_images_ s).
Proof.
  unfold schedule_image.
  destruct (find_scheduled image (scheduled_images_ s)) as [[i e]|]; [|by right].
  case_decide; [by right|by left].
Qed.

Lemma schedule_image_sorted image priority s :
  Sorted prio_ge (scheduled_images_ s) →
  Sorted prio_ge (scheduled_images_ (schedule_image sort_greater image priority s)).
Proof.
  intros Hs. unfold schedule_image.
  destruct (find_scheduled image (scheduled_images_ s)) as [[i e]|].
  - case_decide; [|done]. apply sort_conforms.
  - apply sort_conforms.
Qed.

Lemma schedule_image_keeps_others image priority s img :
  img ∈ unscheduled_images_ (schedule_image sort_greater image priority s) →
  img ∈ unscheduled_images_ s.
Proof.
  destruct (schedule_image_unscheduled image priority s) as [->| ->]; [done|].
  apply purge_subseteq.
Qed.

Lemma schedule_image_purges image priority s :
  scheduler_inv s →
  image ∉ unscheduled_images_ (schedule_image sort_greater image priority s).
Proof.
  intros [_ _ Hu Hdis]. unfold schedule_image.
  destruct (find_scheduled image (scheduled_images_ s)) as [[i e]|] eqn:Hf.
  - case_decide; simpl; [by apply purge_NoDup|].
    apply Hdis, list_elem_of_fmap.
    apply find_scheduled_Some in Hf as [Hi He].
    exists e. split; [done|]. by eapply list_elem_of_lookup_2.
  - simpl. by apply purge_NoDup.
Qed.

Lemma schedule_image_inv image priority s :
  scheduler_inv s → scheduler_inv (schedule_image sort_greater image priority s).
Proof.
  intros Hinv. pose proof Hinv as [Hsort Hq Hu Hdis].
  pose proof (schedule_image_queued image priority s) as Hperm.
  split.
  - by apply schedule_image_sorted.
  - rewrite Hperm. case_decide; [done|]. by apply NoDup_cons.
  - destruct (schedule_image_unscheduled image priority s) as [->| ->]; [done|].
    by apply purge_NoDup.
  - intros img Himg Hdrop. rewrite Hperm in Himg.
    destruct (decide (img = image)) as [->|Hne].
    + by apply (schedule_image_purges image priority s).
    + apply schedule_image_keeps_others in Hdrop.
      apply (Hdis img); [|done].
      case_decide; [done|]. by apply elem_of_cons in Himg as [?|?].
Qed.

Lemma unschedule_image_inv image s :
  scheduler_inv s → scheduler_inv (unschedule_image image s).
Proof.
  intros [Hsort Hq Hu Hdis]. unfold unschedule_image.
  destruct (find_scheduled image (scheduled_images_ s)) as [[i e]|] eqn:Hf.
  - split; simpl.
    + eapply Sorted_prio_ge_sublist; [apply sublist_delete|done].
    + unfold queued_images; simpl. rewrite list_fmap_delete.
      eapply sublist_NoDup; [exact Hq|apply sublist_delete].
    + done.
    + intros img Himg. apply Hdis. unfold queued_images in *; simpl in Himg.
      rewrite list_fmap_delete in Himg.
      eapply elem_of_sublist; [done|apply sublist_delete].
  - destruct (find_unscheduled image (unscheduled_images_ s)) as [[j x]|] eqn:Hg.
    + by split.
    + apply find_scheduled_None in Hf. apply find_unscheduled_None in Hg.
      split; simpl; [done|done| |].
      * apply NoDup_app. split_and!; [done| |apply NoDup_singleton].
        intros x Hx ->%list_elem_of_singleton. done.
      * intros img Himg [Hin| ->%list_elem_of_singleton]%elem_of_app.
        -- by apply (Hdis img).
        -- done.
Qed.

Lemma next_scheduled_image_inv s :
  scheduler_inv s → scheduler_inv (next_scheduled_image s).2.
Proof.
  intros [Hsort Hq Hu Hdis]. unfold next_scheduled_image.
  destruct (last (scheduled_images_ s)) as [e|]; [|by split].
  split; simpl.
  - eapply Sorted_prio_ge_sublist; [apply sublist_take|done].
  - unfold queued_images; simpl. rewrite fmap_take.
    eapply sublist_NoDup; [exact Hq|apply sublist_take].
  - done.
  - intros img Himg. apply Hdis. unfold queued_images in *; simpl in Himg.
    rewrite fmap_take in Himg.
    eapply elem_of_sublist; [done|apply sublist_take].
Qed.

Lemma empty_scheduler_inv : scheduler_inv empty_scheduler.
Proof.
  split; simpl; [constructor|constructor|constructor|].
  intros img Himg. by apply elem_of_nil in Himg.
Qed.

Lemma do_call_inv c s : scheduler_inv s → scheduler_inv (do_call sort_greater c s).
Proof.
  destruct c; simpl;
    auto using schedule_image_inv, unschedule_image_inv, next_scheduled_image_inv.
Qed.

(** Every state the three operations reach satisfies the invariant. *)
Lemma do_calls_inv cs s : scheduler_inv s → scheduler_inv (do_calls sort_greater cs s).
Proof.
  revert s. induction cs as [|c cs IH]; intros s Hs; [done|].
  apply IH. by apply do_call_inv.
Qed.
(** [schedule_image] leaves the entries of the other images as they are,
    up to their order. *)
Lemma others_at_insert (q : list prio_shared_image) i p0 p priority image :
  q !! i = Some (p0, image) →
  others_at p image (<[i := (priority, image)]> q) = others_at p image q.
Proof.
  intros Hi. unfold others_at. f_equal.
  rewrite insert_take_drop by (by eapply lookup_lt_Some).
  rewrite <- (take_drop_middle q i _ Hi) at 3.
  rewrite !filter_app, !filter_cons; simpl.
  rewrite !decide_False; [done|tauto|tauto].
Qed.

Lemma schedule_image_others image priority s p :
  others_at p image (scheduled_images_ (schedule_image sort_greater image priority s))
  ≡ₚ others_at p image (scheduled_images_ s).
Proof.
  destruct (decide (image ∈ queued_images s)) as [Hin|Hin].
  - apply find_scheduled_elem_of in Hin as (i & p0 & Hf).
    destruct (decide (p0 = priority)) as [->|Hp].
    + by rewrite (schedule_image_same _ _ _ _ Hf).
    + rewrite (schedule_image_changed _ _ _ _ _ Hf Hp); simpl.
      apply find_scheduled_Some in Hf as [Hi _].
      rewrite <- (others_at_insert _ _ _ p priority _ Hi).
      unfold others_at. by rewrite (proj1 (sort_conforms _)).
  - rewrite (schedule_image_fresh _ _ _ Hin); simpl.
    unfold others_at. rewrite (proj1 (sort_conforms _)).
    rewrite filter_app, filter_cons; simpl.
    rewrite decide_False by tauto. by rewrite filter_nil, app_nil_r.
Qed.

(** After [schedule_image(image, priority)] the image is queued at [priority]. *)
Lemma schedule_image_queues image priority s :
  (priority, image) ∈ scheduled_images_ (schedule_image sort_greater image priority s).
Proof.
  destruct (decide (image ∈ queued_images s)) as [Hin|Hin].
  - apply find_scheduled_elem_of in Hin as (i & p0 & Hf).
    destruct (decide (p0 = priority)) as [->|Hp].
    + rewrite (schedule_image_same _ _ _ _ Hf).
      apply find_scheduled_Some in Hf as [Hi _]. by eapply list_elem_of_lookup_2.
    + rewrite (schedule_image_changed _ _ _ _ _ Hf Hp); simpl.
      rewrite (proj1 (sort_conforms _)).
      apply find_scheduled_Some in Hf as [Hi%lookup_lt_Some _].
      eapply list_elem_of_lookup_2. by apply list_lookup_insert_eq.
  - rewrite (schedule_image_fresh _ _ _ Hin); simpl.
    rewrite (proj1 (sort_conforms _)). apply elem_of_app. right. by left.
Qed.

(** C6. [schedule_image(image, priority)] appends an entry when the image is
    not queued, overwrites the priority of the entry [find] returns when it
    differs from [priority], in both cases sorts the queue and drops the
    image from the unscheduled set; when the entry found already has
    [priority], the scheduler is left as it was. *)
Theorem schedule_image_inserts_or_updates image priority s :
  let s' := schedule_image sort_greater image priority s in
  (image ∉ queued_images s →
     scheduled_images_ s' ≡ₚ scheduled_images_ s ++ [(priority, image)] ∧
     Sorted prio_ge (scheduled_images_ s') ∧
     dropped_from image (unscheduled_images_ s) (unscheduled_images_ s')) ∧
  (∀ i p, find_scheduled image (scheduled_images_ s) = Some (i, (p, image)) →
     p ≠ priority →
     scheduled_images_ s' ≡ₚ <[i := (priority, image)]> (scheduled_images_ s) ∧
     Sorted prio_ge (scheduled_images_ s') ∧
     dropped_from image (unscheduled_images_ s) (unscheduled_images_ s')) ∧
  (∀ i, find_scheduled image (scheduled_images_ s) = Some (i, (priority, image)) →
     s' = s).
Proof.
  simpl. split_and!.
  - intros Hin. rewrite (schedule_image_fresh _ _ _ Hin); simpl.
    split_and!; [apply sort_conforms..|apply purge_dropped_from].
  - intros i p Hf Hp. rewrite (schedule_image_changed _ _ _ _ _ Hf Hp); simpl.
    split_and!; [apply sort_conforms..|apply purge_dropped_from].
  - intros i Hf. by apply schedule_image_same in Hf.
Qed.

(** C7. [unschedule_image(image)] erases the entry [find] returns from the
    queue and leaves the unscheduled set alone; when the image has no entry
    the queue is left alone and the image is appended to the unscheduled
    set unless it is there already. *)
Theorem unschedule_image_erases_or_marks image s :
  let s' := unschedule_image image s in
  (∀ i e, find_scheduled image (scheduled_images_ s) = Some (i, e) →
     e.2 = image ∧
     scheduled_images_ s' = delete i (scheduled_images_ s) ∧
     scheduled_images_ s ≡ₚ e :: scheduled_images_ s' ∧
     unscheduled_images_ s' = unscheduled_images_ s) ∧
  (image ∉ queued_images s →
     scheduled_images_ s' = scheduled_images_ s ∧
     (image ∈ unscheduled_images_ s →
        unscheduled_images_ s' = unscheduled_images_ s) ∧
     (image ∉ unscheduled_images_ s →
        unscheduled_images_ s' = unscheduled_images_ s ++ [image])).
Proof.
  simpl. unfold unschedule_image. split.
  - intros i e Hf. rewrite Hf; simpl.
    apply find_scheduled_Some in Hf as [Hi He].
    split_and!; [done|done| |done]. by apply delete_Permutation.
  - intros Hq%find_scheduled_None. rewrite Hq.
    destruct (find_unscheduled image (unscheduled_images_ s)) as [[j x]|] eqn:Hu.
    + split_and!; [done|done|].
      intros Hn%find_unscheduled_None. by rewrite Hn in Hu.
    + split_and!; [done| |done].
      intros Hin. by apply find_unscheduled_None in Hu.
Qed.

(** C1, as the code has it. In a queue sorted by [std::ranges::greater]
    (every reachable one is), [next_scheduled_image] removes the entry at
    the back and returns its image, and no queued entry has a smaller
    priority value than that entry; on an empty queue it returns the empty
    pointer and changes nothing. *)
Theorem next_scheduled_image_pops_least s :
  Sorted prio_ge (scheduled_images_ s) →
  match next_scheduled_image s with
  | (Some img, s') =>
      ∃ p, scheduled_images_ s = scheduled_images_ s' ++ [(p, img)] ∧
           unscheduled_images_ s' = unscheduled_images_ s ∧
           ∀ e, e ∈ scheduled_images_ s → (p ≤ e.1)%N
  | (None, s') => scheduled_images_ s = [] ∧ s' = s
  end.
Proof.
  intros Hsort. unfold next_scheduled_image.
  destruct (last (scheduled_images_ s)) as [[p img]|] eqn:Hlast.
  - apply last_Some in Hlast as [q Hq]. exists p. simpl. rewrite Hq in Hsort |- *.
    rewrite take_pred_length_snoc. split_and!; [done|done|].
    intros e He. by apply (sorted_back_least q (p, img) e).
  - by apply last_None in Hlast.
Qed.

(** C3. In every state reached from the empty scheduler by calls of
    [schedule_image], [unschedule_image] and [next_scheduled_image], no
    image is both queued and in the unscheduled set; from there,
    [schedule_image] leaves its image queued and out of the unscheduled
    set, and [unschedule_image] leaves its image out of the queue. *)
Theorem queue_and_unscheduled_disjoint (cs : list scheduler_call) :
  let s := do_calls sort_greater cs empty_scheduler in
  (∀ img, ¬ (img ∈ queued_images s ∧ img ∈ unscheduled_images_ s)) ∧
  (∀ img p,
     img ∈ queued_images (schedule_image sort_greater img p s) ∧
     img ∉ unscheduled_images_ (schedule_image sort_greater img p s)) ∧
  (∀ img, img ∉ queued_images (unschedule_image img s)).
Proof.
  simpl. set (s := do_calls sort_greater cs empty_scheduler).
  assert (scheduler_inv s) as Hinv by apply do_calls_inv, empty_scheduler_inv.
  split_and!.
  - intros img [Hq Hu]. by apply (inv_disjoint s Hinv img).
  - intros img p. split; [|by apply schedule_image_purges].
    rewrite schedule_image_queued. case_decide; [done|]. by left.
  - intros img Hin.
    pose proof (unschedule_image_inv img s Hinv) as Hinv'.
    unfold unschedule_image in *.
    destruct (find_scheduled img (scheduled_images_ s)) as [[i e]|] eqn:Hf.
    + apply find_scheduled_Some in Hf as [Hi He].
      destruct Hinv as [_ Hnd _ _]. unfold queued_images in *; simpl in Hin.
      rewrite list_fmap_delete in Hin.
      assert ((scheduled_images_ s).*2 !! i = Some img) as Hi'.
      { by rewrite list_lookup_fmap, Hi; simpl; rewrite He. }
      rewrite (delete_Permutation _ _ _ Hi') in Hnd.
      by apply NoDup_cons in Hnd as [? _].
    + apply find_scheduled_None in Hf.
      by destruct (find_unscheduled img (unscheduled_images_ s)).
Qed.

(** C4, as the code has it. After [schedule_image] on a sorted queue the
    queue is sorted by priority, greatest first; an image that was queued
    keeps its one entry (the queue holds the same images as before), and at
    every priority the entries of the other images are the same as before,
    in an order that [std::ranges::sort] is free to choose. *)
Theorem schedule_image_sorted_same_entries image priority s :
  Sorted prio_ge (scheduled_images_ s) →
  let s' := schedule_image sort_greater image priority s in
  Sorted prio_ge (scheduled_images_ s') ∧
  (image ∈ queued_images s →
     queued_images s' ≡ₚ queued_images s ∧
     length (scheduled_images_ s') = length (scheduled_images_ s)) ∧
  (image ∉ queued_images s → queued_images s' ≡ₚ image :: queued_images s) ∧
  (priority, image) ∈ scheduled_images_ s' ∧
  (∀ p, others_at p image (scheduled_images_ s')
        ≡ₚ others_at p image (scheduled_images_ s)).
Proof.
  intros Hsort; simpl. pose proof (schedule_image_queued image priority s) as Hq.
  split_and!.
  - by apply schedule_image_sorted.
  - intros Hin. rewrite decide_True in Hq by done. split; [done|].
    apply Permutation_length in Hq. unfold queued_images in Hq.
    by rewrite !length_fmap in Hq.
  - intros Hin. by rewrite decide_False in Hq.
  - apply schedule_image_queues.
  - apply schedule_image_others.
Qed.
End scheduler_facts.

(** *** The scheduler at work *)

(** Image 3 is not queued and is marked to be dropped: it is appended,
    the queue is sorted and the mark is gone. *)
Lemma schedule_image_inserts_or_updates_witness :
  let s := Scheduler [(1%N, 1); (1%N, 2)] [3; 4; 5] in
  let s' := schedule_image merge_sort_greater 3 1 s in
  scheduled_images_ s' ≡ₚ [(1%N, 1); (1%N, 2)] ++ [(1%N, 3)] ∧
  Sorted prio_ge (scheduled_images_ s') ∧
  dropped_from 3 [3; 4; 5] (unscheduled_images_ s').
Proof.
  apply (proj1 (schedule_image_inserts_or_updates merge_sort_greater
                  merge_sort_greater_conforming 3 1%N
                  (Scheduler [(1%N, 1); (1%N, 2)] [3; 4; 5]))).
  apply (bool_decide_unpack _). vm_compute. exact I.
Defined.

(** Image 2 is queued at index 1: its entry goes, the marks stay. *)
Lemma unschedule_image_erases_or_marks_witness :
  let s := Scheduler [(1%N, 1); (1%N, 2)] [3; 4; 5] in
  let s' := unschedule_image 2 s in
  (1%N, 2).2 = 2 ∧
  scheduled_images_ s' = delete 1 [(1%N, 1); (1%N, 2)] ∧
  scheduled_images_ s ≡ₚ (1%N, 2) :: scheduled_images_ s' ∧
  unscheduled_images_ s' = [3; 4; 5].
Proof.
  apply (proj1 (unschedule_image_erases_or_marks 2
                  (Scheduler [(1%N, 1); (1%N, 2)] [3; 4; 5])) 1 (1%N, 2)).
  reflexivity.
Defined.

Lemma next_scheduled_image_pops_least_witness :
  Sorted prio_ge [(5%N, 2); (0%N, 1)] ∧
  ∃ p, [(5%N, 2); (0%N, 1)] = [(5%N, 2)] ++ [(p, 1)] ∧
       @nil nat = [] ∧
       ∀ e, e ∈ [(5%N, 2); (0%N, 1)] → (p ≤ e.1)%N.
Proof.
  assert (Sorted prio_ge [(5%N, 2); (0%N, 1)]) as Hsort.
  { repeat constructor. unfold prio_ge; simpl. lia. }
  split; [exact Hsort|].
  exact (next_scheduled_image_pops_least (Scheduler [(5%N, 2); (0%N, 1)] []) Hsort).
Defined.

(** C1 as worded fails: after [schedule_image(1, 0)] and
    [schedule_image(2, 5)] the queue is [(5, 2); (0, 1)], and the worker is
    handed image 1, queued at 0, while image 2 waits at 5. *)
Lemma next_scheduled_image_not_greatest :
  ¬ pops_greatest
      (do_calls merge_sort_greater [call_schedule 1 0; call_schedule 2 5]
                empty_scheduler).
Proof.
  assert (do_calls merge_sort_greater [call_schedule 1 0; call_schedule 2 5]
            empty_scheduler = Scheduler [(5%N, 2); (0%N, 1)] []) as -> by reflexivity.
  unfold pops_greatest; simpl. intros (p & Hin & Hmax).
  assert (p = 0%N) as ->.
  { apply elem_of_cons in Hin as [Heq|Hin]; [by inversion Heq|].
    apply list_elem_of_singleton in Hin. by inversion Hin. }
  specialize (Hmax (5%N, 2)). simpl in Hmax.
  assert ((5 ≤ 0)%N) as Hle by (apply Hmax; by left). lia.
Qed.

Lemma queue_and_unscheduled_disjoint_witness :
  let s := do_calls merge_sort_greater
             [call_schedule 1 3; call_unschedule 2; call_schedule 2 1; call_next]
             empty_scheduler in
  (∀ img, ¬ (img ∈ queued_images s ∧ img ∈ unscheduled_images_ s)) ∧
  (∀ img p,
     img ∈ queued_images (schedule_image merge_sort_greater img p s) ∧
     img ∉ unscheduled_images_ (schedule_image merge_sort_greater img p s)) ∧
  (∀ img, img ∉ queued_images (unschedule_image img s)).
Proof.
  exact (queue_and_unscheduled_disjoint merge_sort_greater
           merge_sort_greater_conforming
           [call_schedule 1 3; call_unschedule 2; call_schedule 2 1; call_next]).
Defined.

Lemma schedule_image_sorted_same_entries_witness :
  let s := Scheduler [(2%N, 3); (1%N, 1); (1%N, 2)] [] in
  let s' := schedule_image merge_sort_greater 3 0 s in
  Sorted prio_ge (scheduled_images_ s) ∧
  Sorted prio_ge (scheduled_images_ s') ∧
  (0%N, 3) ∈ scheduled_images_ s' ∧
  (∀ p, others_at p 3 (scheduled_images_ s') ≡ₚ others_at p 3 (scheduled_images_ s)).
Proof.
  assert (Sorted prio_ge [(2%N, 3); (1%N, 1); (1%N, 2)]) as Hsort.
  { repeat constructor; unfold prio_ge; simpl; lia. }
  split; [exact Hsort|].
  pose proof (schedule_image_sorted_same_entries merge_sort_greater
                merge_sort_greater_conforming 3 0%N
                (Scheduler [(2%N, 3); (1%N, 1); (1%N, 2)] []) Hsort)
    as (H1 & _ & _ & H4 & H5).
  exact (conj H1 (conj H4 H5)).
Defined.

(** C4 as worded fails for the sort of the C++ library. Images 1 to 16
    are scheduled at priority 1 one after the other and stand in the queue
    in that order. Scheduling image 17 at priority 1 appends it and sorts 17
    entries: the sort partitions around the median of three, swaps equal
    entries across the pivot, and the sixteen untouched images come out as
    9, 16, 15, ..., 10, 1, 8, 7, ..., 2. *)
Lemma schedule_image_reorders_seventeen_equal :
  let s := do_calls libstdcxx_sort_greater
             ((λ i, call_schedule i 1) <$> seq 1 16) empty_scheduler in
  scheduled_images_ s = (λ i, (1%N, i)) <$> seq 1 16 ∧
  scheduled_images_ (schedule_image libstdcxx_sort_greater 17 1 s)
  = (λ i, (1%N, i)) <$> [9; 17; 16; 15; 14; 13; 12; 11; 10; 1; 8; 7; 6; 5; 4; 3; 2] ∧
  ¬ keeps_equal_priority_order libstdcxx_sort_greater 17 1 s.
Proof.
  split; [by vm_compute|]. split; [by vm_compute|].
  intros Hkeep. specialize (Hkeep 1%N). vm_compute in Hkeep. discriminate Hkeep.
Qed.

(** *** The worker loop *)

Section worker_facts.
Variable sort_greater : list prio_shared_image → list prio_shared_image.
Variable operator_bool : image_state → bool.

Implicit Types (l : loader) (img : image_ptr) (e : event) (es : list event).

Local Abbreviation step' := (step sort_greater operator_bool).
Local Abbreviation run' := (run sort_greater operator_bool).
Local Abbreviation work_loop_step' := (work_loop_step operator_bool).

Lemma run_app es1 es2 l : run' (es1 ++ es2) l = run' es2 (run' es1 l).
Proof. apply foldl_app. Qed.

Lemma run_snoc es e l : run' (es ++ [e]) l = step' e (run' es l).
Proof. by rewrite run_app. Qed.

(** The other threads move neither the worker nor its record of calls. *)
Lemma client_step_worker e l :
  is_client e = true →
  pc (step' e l) = pc l ∧ worker_calls (step' e l) = worker_calls l.
Proof. by destruct e. Qed.

Lemma client_run_worker es l :
  Forall (λ e, is_client e = true) es →
  pc (run' es l) = pc l ∧ worker_calls (run' es l) = worker_calls l.
Proof.
  intros Hes. revert l. induction Hes as [|e es He _ IH]; intros l; [done|].
  simpl. destruct (IH (step' e l)) as [-> ->]. by apply client_step_worker.
Qed.

(** A stop request is never withdrawn. *)
Lemma step_stop_requested e l :
  stop_requested l = true → stop_requested (step' e l) = true.
Proof.
  intros Hstop. destruct e as [| | | |ok]; simpl; try done.
  unfold work_loop_step. destruct (pc l); simpl; try done.
  - rewrite Hstop. done.
  - by destruct (find_unscheduled _ _).
Qed.

(** The worker has left the loop only if a stop was requested. *)
Lemma step_exited e l :
  (pc l = exited → stop_requested l = true) →
  pc (step' e l) = exited → stop_requested (step' e l) = true.
Proof.
  intros Hl. destruct e as [| | | |ok]; simpl; try done.
  unfold work_loop_step. destruct (pc l) eqn:Hpc; simpl; try done.
  - destruct (stop_requested l); [done|].
    destruct (next_scheduled_image (sched l)) as [[img|] s']; [|done].
    by destruct (operator_bool _).
  - by destruct (find_unscheduled _ _).
  - by destruct (stop_requested l).
  - intros _. by apply Hl.
Qed.

Lemma run_exited es l :
  (pc l = exited → stop_requested l = true) →
  pc (run' es l) = exited → stop_requested (run' es l) = true.
Proof.
  revert l. induction es as [|e es IH]; intros l Hl; [done|].
  simpl. apply IH. by apply step_exited.
Qed.
Hypothesis sort_conforms : conforming_sort sort_greater.

(** [next_scheduled_image] hands out queued images only, and what it
    leaves queued was queued before. *)
Lemma next_scheduled_image_queued (s s' : scheduler) img :
  next_scheduled_image s = (Some img, s') →
  img ∈ queued_images s ∧ ∀ j, j ∈ queued_images s' → j ∈ queued_images s.
Proof.
  unfold next_scheduled_image.
  destruct (last (scheduled_images_ s)) as [e|] eqn:Hlast; [|done].
  intros [= <- <-]. unfold queued_images; simpl. split.
  - apply list_elem_of_fmap. exists e. split; [done|]. by apply last_Some_elem_of.
  - intros j Hj. rewrite fmap_take in Hj.
    eapply elem_of_sublist; [done|apply sublist_take].
Qed.

Lemma next_scheduled_image_None_queued (s s' : scheduler) :
  next_scheduled_image s = (None, s') → s' = s.
Proof.
  unfold next_scheduled_image.
  destruct (last (scheduled_images_ s)); [done|]. by intros [= <-].
Qed.

Lemma unschedule_image_queued image (s : scheduler) j :
  j ∈ queued_images (unschedule_image image s) → j ∈ queued_images s.
Proof.
  unfold unschedule_image, queued_images.
  destruct (find_scheduled image (scheduled_images_ s)) as [[i e]|]; simpl.
  - rewrite list_fmap_delete. intros Hj.
    eapply elem_of_sublist; [done|apply sublist_delete].
  - by destruct (find_unscheduled image (unscheduled_images_ s)).
Qed.

Lemma unschedule_image_keeps_marks image (s : scheduler) j :
  j ∈ unscheduled_images_ s → j ∈ unscheduled_images_ (unschedule_image image s).
Proof.
  unfold unschedule_image.
  destruct (find_scheduled image (scheduled_images_ s)) as [[i e]|]; simpl; [done|].
  destruct (find_unscheduled image (unscheduled_images_ s)); simpl; [done|].
  intros Hj. apply elem_of_app. by left.
Qed.

Lemma unschedule_image_marks image (s : scheduler) :
  image ∉ queued_images s → image ∈ unscheduled_images_ (unschedule_image image s).
Proof.
  intros Hq%find_scheduled_None. unfold unschedule_image. rewrite Hq.
  destruct (find_unscheduled image (unscheduled_images_ s)) as [[j x]|] eqn:Hu; simpl.
  - apply find_unscheduled_Some in Hu. by eapply list_elem_of_lookup_2.
  - apply elem_of_app. right. by left.
Qed.

Lemma schedule_image_keeps_marks image priority (s : scheduler) j :
  j ≠ image → j ∈ unscheduled_images_ s →
  j ∈ unscheduled_images_ (schedule_image sort_greater image priority s).
Proof.
  intros Hne Hj.
  destruct (schedule_image_unscheduled sort_greater image priority s) as [->| ->];
    [done|by apply purge_other].
Qed.

Lemma step_marked_in_flight img e l :
  is_schedule_of img e = false →
  marked_in_flight img l → marked_in_flight img (step' e l).
Proof.
  intros He [Hq Hm]. destruct e as [j p|j|j| |ok]; simpl in *.
  - apply bool_decide_eq_false in He. split; simpl.
    + rewrite (schedule_image_queued sort_greater sort_conforms).
      case_decide; [done|]. intros [?|?]%elem_of_cons; congruence.
    + intros Hfl. apply schedule_image_keeps_marks; [congruence|by apply Hm].
  - split; simpl.
    + intros Hin. by apply unschedule_image_queued in Hin.
    + intros Hfl. apply unschedule_image_keeps_marks. by apply Hm.
  - done.
  - done.
  - unfold work_loop_step, marked_in_flight, in_flight in *.
    destruct (pc l) as [|j|j| | |] eqn:Hpc; simpl.
    + destruct (stop_requested l); simpl; [split; [done|by intros [?|?]]|].
      destruct (next_scheduled_image (sched l)) as [[j|] s'] eqn:Hnext.
      * apply next_scheduled_image_queued in Hnext as [Hj Hsub].
        assert (j ≠ img) by congruence.
        destruct (operator_bool (images l j)); simpl.
        -- split; [by intros ?%Hsub|by intros [?|?]].
        -- split; [by intros ?%Hsub|intros [?|?]; congruence].
      * apply next_scheduled_image_None_queued in Hnext as ->.
        split; [done|by intros [?|?]].
    + split; [done|]. intros [?|[= ->]]; [done|]. apply Hm. by left.
    + destruct (find_unscheduled j _); simpl; (split; [done|by intros [?|?]]).
    + split; [done|]. by destruct (stop_requested l); intros [?|?].
    + split; [done|by intros [?|?]].
    + by rewrite Hpc.
Qed.

Lemma run_marked_in_flight img es l :
  Forall (λ e, is_schedule_of img e = false) es →
  marked_in_flight img l → marked_in_flight img (run' es l).
Proof.
  intros Hes. revert l. induction Hes as [|e es He _ IH]; intros l Hl; [done|].
  simpl. apply IH. by apply step_marked_in_flight.
Qed.
(** C2, as the code has it. An image that the worker holds and that has no
    pending entry when [unschedule_image] is called for it stays in the
    unscheduled set for as long as the worker holds it, unless
    [schedule_image] is called for it; the running [load()] leads to the
    check, and there the worker calls [clear()] on it and leaves it
    unloaded. *)
Theorem unscheduled_in_flight_is_dropped l img es :
  in_flight img l →
  img ∉ queued_images (sched l) →
  Forall (λ e, is_schedule_of img e = false) es →
  let l' := run' es (step' (ev_unschedule img) l) in
  (in_flight img l' → img ∈ unscheduled_images_ (sched l')) ∧
  (pc l' = in_load img →
     ∀ ok, pc (work_loop_step' ok l') = after_load img ∧
           img ∈ unscheduled_images_ (sched (work_loop_step' ok l'))) ∧
  (pc l' = after_load img →
     ∀ ok, images (work_loop_step' ok l') img = unloaded ∧
           worker_calls (work_loop_step' ok l') = worker_calls l' ++ [called_clear img] ∧
           pc (work_loop_step' ok l') = at_loop_head).
Proof.
  intros Hfl Hq Hes l'.
  assert (marked_in_flight img l') as [Hq' Hm'].
  { apply run_marked_in_flight; [done|]. split; simpl.
    - intros Hin. by apply unschedule_image_queued in Hin.
    - intros _. by apply unschedule_image_marks. }
  split_and!; [done| |].
  - intros Hpc ok. unfold work_loop_step. rewrite Hpc; simpl.
    split; [done|]. apply Hm'. left. exact Hpc.
  - intros Hpc ok. unfold work_loop_step. rewrite Hpc.
    assert (img ∈ unscheduled_images_ (sched l')) as Hin by (apply Hm'; right; exact Hpc).
    destruct (find_unscheduled img (unscheduled_images_ (sched l'))) eqn:Hfind.
    + simpl. split_and!; [|done|done]. unfold set_image. by rewrite decide_True.
    + by apply find_unscheduled_None in Hfind.
Qed.

(** C8. [work_loop] returns only when a stop was requested. With nothing
    queued and no stop requested the worker ends up waiting on the condition
    variable; a dequeued image for which [operator bool] holds sends it back
    to the loop head; so does a [load()] that fails, after the check. *)
Theorem work_loop_exits_only_on_stop l es :
  pc l ≠ exited →
  (pc (run' es l) = exited → stop_requested (run' es l) = true) ∧
  (∀ l0 ok, pc l0 = at_loop_head → stop_requested l0 = false →
     scheduled_images_ (sched l0) = [] →
     pc (work_loop_step' ok (work_loop_step' ok l0)) = waiting) ∧
  (∀ l0 ok img s', pc l0 = at_loop_head → stop_requested l0 = false →
     next_scheduled_image (sched l0) = (Some img, s') →
     operator_bool (images l0 img) = true →
     pc (work_loop_step' ok l0) = at_loop_head) ∧
  (∀ l0 ok img, pc l0 = in_load img →
     images (work_loop_step' false l0) img = failed ∧
     pc (work_loop_step' false l0) = after_load img ∧
     pc (work_loop_step' ok (work_loop_step' false l0)) = at_loop_head).
Proof.
  intros Hpc. split_and!.
  - by apply run_exited.
  - intros [s0 im0 st0 pc0 c0] ok Hpc0 Hstop Hempty. simpl in *. subst.
    destruct s0 as [q0 u0]. simpl in *. subst. done.
  - intros l0 ok img s' Hpc0 Hstop Hnext Hbool. unfold work_loop_step.
    by rewrite Hpc0, Hstop, Hnext, Hbool.
  - intros [s0 im0 st0 pc0 c0] ok img Hpc0. simpl in *. subst.
    unfold work_loop_step; simpl. split_and!; [|done|].
    + unfold set_image. by rewrite decide_True.
    + by destruct (find_unscheduled img _).
Qed.

(** C10. Take a worker at its loop head that dequeues [img], for which
    [operator bool] does not hold, and let the other threads do [es1] while
    [load()] runs and [es2] before the worker takes the lock again. After
    the check the unscheduled set is empty, whatever the other threads put
    there; of the methods of images the worker has called [load()] on
    [img] and, only if [img] was marked, [clear()] on [img], and the check
    leaves the state of every other image as it was. *)
Theorem worker_check_empties_unscheduled_set l img s' es1 es2 ok :
  pc l = at_loop_head →
  stop_requested l = false →
  next_scheduled_image (sched l) = (Some img, s') →
  operator_bool (images l img) = false →
  Forall (λ e, is_client e = true) es1 →
  Forall (λ e, is_client e = true) es2 →
  let before :=
    run' es2 (work_loop_step' ok (run' es1 (work_loop_step' ok l))) in
  let after := work_loop_step' ok before in
  pc before = after_load img ∧
  unscheduled_images_ (sched after) = [] ∧
  scheduled_images_ (sched after) = scheduled_images_ (sched before) ∧
  pc after = at_loop_head ∧
  worker_calls after =
    worker_calls l ++ [called_load img] ++
    (if decide (img ∈ unscheduled_images_ (sched before))
     then [called_clear img] else []) ∧
  (∀ j, j ≠ img → images after j = images before j).
Proof.
  intros Hpc Hstop Hnext Hbool Hes1 Hes2. cbv zeta.
  set (l1 := work_loop_step' ok l).
  assert (pc l1 = in_load img ∧ worker_calls l1 = worker_calls l ++ [called_load img])
    as [Hpc1 Hc1].
  { unfold l1, work_loop_step. by rewrite Hpc, Hstop, Hnext, Hbool. }
  set (l2 := run' es1 l1).
  destruct (client_run_worker es1 l1 Hes1) as [Hpc2 Hc2].
  fold l2 in Hpc2, Hc2. rewrite Hpc1 in Hpc2. rewrite Hc1 in Hc2.
  set (l3 := work_loop_step' ok l2).
  assert (pc l3 = after_load img ∧ worker_calls l3 = worker_calls l ++ [called_load img])
    as [Hpc3 Hc3].
  { unfold l3, work_loop_step. by rewrite Hpc2. }
  set (l4 := run' es2 l3).
  destruct (client_run_worker es2 l3 Hes2) as [Hpc4 Hc4].
  fold l4 in Hpc4, Hc4. rewrite Hpc3 in Hpc4. rewrite Hc3 in Hc4.
  split; [done|]. unfold work_loop_step. rewrite Hpc4.
  destruct (find_unscheduled img (unscheduled_images_ (sched l4))) as [[i x]|] eqn:Hf;
    simpl.
  - rewrite Hc4. apply find_unscheduled_Some, list_elem_of_lookup_2 in Hf.
    rewrite decide_True by done. split_and!; try done.
    + by rewrite <- app_assoc.
    + intros j Hj. unfold set_image. by rewrite decide_False.
  - rewrite Hc4. apply find_unscheduled_None in Hf.
    rewrite decide_False by done. by split_and!.
Qed.
End worker_facts.

(** *** The worker at work *)

(** Image 1 is being loaded with nothing queued; it is unscheduled, other
    images come and go, the load ends: the check clears image 1. *)
Lemma unscheduled_in_flight_is_dropped_witness :
  let l := run merge_sort_greater is_loaded
             [ev_schedule 1 0; ev_worker true] idle_loader in
  let l' := run merge_sort_greater is_loaded
              [ev_schedule 2 3; ev_unschedule 2; ev_worker true]
              (step merge_sort_greater is_loaded (ev_unschedule 1) l) in
  pc l' = after_load 1 ∧
  images (work_loop_step is_loaded true l') 1 = unloaded ∧
  worker_calls (work_loop_step is_loaded true l') = worker_calls l' ++ [called_clear 1] ∧
  pc (work_loop_step is_loaded true l') = at_loop_head.
Proof.
  split; [reflexivity|].
  refine (proj2 (proj2 (unscheduled_in_flight_is_dropped merge_sort_greater is_loaded
                          merge_sort_greater_conforming
                          (run merge_sort_greater is_loaded
                             [ev_schedule 1 0; ev_worker true] idle_loader)
                          1 [ev_schedule 2 3; ev_unschedule 2; ev_worker true]
                          _ _ _)) _ true).
  - left. reflexivity.
  - apply (bool_decide_unpack _). vm_compute. exact I.
  - repeat constructor.
  - reflexivity.
Defined.

(** C2 as worded fails, in two ways. In the first run image 1 is scheduled
    again while its load runs, so that it has a pending entry when
    [unschedule_image] is called: the entry is erased, the image is not
    marked, and the check leaves it loaded. In the second run
    [schedule_image] is called for image 1 after it was marked: the mark is
    purged, and the check leaves it loaded and queued. *)
Lemma unscheduled_in_flight_left_loaded :
  ¬ dropped_after_load merge_sort_greater is_loaded
      (run merge_sort_greater is_loaded
         [ev_schedule 1 0; ev_worker true; ev_schedule 1 1] idle_loader)
      1 [ev_worker true] ∧
  ¬ dropped_after_load merge_sort_greater is_loaded
      (run merge_sort_greater is_loaded
         [ev_schedule 1 0; ev_worker true] idle_loader)
      1 [ev_schedule 1 2; ev_worker true].
Proof.
  split; intros Hdrop; unfold dropped_after_load in Hdrop; cbv zeta in Hdrop.
  - assert (in_flight 1 (run merge_sort_greater is_loaded
              [ev_schedule 1 0; ev_worker true; ev_schedule 1 1] idle_loader))
      as Hfl by (left; reflexivity).
    specialize (Hdrop Hfl eq_refl). vm_compute in Hdrop. discriminate Hdrop.
  - assert (in_flight 1 (run merge_sort_greater is_loaded
              [ev_schedule 1 0; ev_worker true] idle_loader))
      as Hfl by (left; reflexivity).
    specialize (Hdrop Hfl eq_refl). vm_compute in Hdrop. discriminate Hdrop.
Qed.

(** An idle worker goes to wait, a stop is requested, the worker is woken
    and leaves the loop. *)
Lemma work_loop_exits_only_on_stop_witness :
  let l := run merge_sort_greater is_loaded
             [ev_worker true; ev_worker true; ev_request_stop;
              ev_worker true; ev_worker true; ev_worker true] idle_loader in
  pc idle_loader ≠ exited ∧ pc l = exited ∧ stop_requested l = true.
Proof.
  assert (pc idle_loader ≠ exited) as Hpc by discriminate.
  split; [exact Hpc|]. split; [reflexivity|].
  apply (proj1 (work_loop_exits_only_on_stop merge_sort_greater is_loaded idle_loader
                  [ev_worker true; ev_worker true; ev_request_stop;
                   ev_worker true; ev_worker true; ev_worker true] Hpc)).
  reflexivity.
Defined.

(** Image 1 is dequeued; while it loads images 2 and 1 are unscheduled,
    then image 3: the check clears image 1 and forgets images 2 and 3. *)
Lemma worker_check_empties_unscheduled_set_witness :
  let l := run merge_sort_greater is_loaded [ev_schedule 1 0] idle_loader in
  let before :=
    run merge_sort_greater is_loaded [ev_unschedule 3]
      (work_loop_step is_loaded true
         (run merge_sort_greater is_loaded [ev_unschedule 2; ev_unschedule 1]
            (work_loop_step is_loaded true l))) in
  let after := work_loop_step is_loaded true before in
  unscheduled_images_ (sched before) = [2; 1; 3] ∧
  pc before = after_load 1 ∧
  unscheduled_images_ (sched after) = [] ∧
  scheduled_images_ (sched after) = scheduled_images_ (sched before) ∧
  pc after = at_loop_head ∧
  worker_calls after =
    worker_calls l ++ [called_load 1] ++
    (if decide (1 ∈ unscheduled_images_ (sched before))
     then [called_clear 1] else []) ∧
  (∀ j, j ≠ 1 → images after j = images before j).
Proof.
  split; [reflexivity|].
  apply (worker_check_empties_unscheduled_set merge_sort_greater is_loaded
           (run merge_sort_greater is_loaded [ev_schedule 1 0] idle_loader)
           1 empty_scheduler [ev_unschedule 2; ev_unschedule 1] [ev_unschedule 3] true).
  - reflexivity.
  - reflexivity.
  - reflexivity.
  - reflexivity.
  - repeat constructor.
  - repeat constructor.
Defined.

(** *** The image source *)

Section source_facts.
Context {cache : Type} `{!ImageCache cache}.
Variable sort_greater : list prio_shared_image → list prio_shared_image.
Variable operator_bool : image_state → bool.
Variable image_path : image_ptr → path.
Variable fs : filesystem.

Implicit Types (src : image_source cache) (p : path) (act : action.t).

Local Abbreviation file_event' := (file_event sort_greater operator_bool image_path).
Local Abbreviation on_cache' := (on_cache sort_greater operator_bool).
Local Abbreviation run_callbacks' := (run_callbacks sort_greater operator_bool).

(** A call on the cache touches the cache and, through the callbacks, the
    loader; nothing else. *)
Lemma on_cache_fields op src :
  cache_ (on_cache' op src) = (op (cache_ src)).1 ∧
  loader_ (on_cache' op src) = run_callbacks' (op (cache_ src)).2 (loader_ src) ∧
  startup_files_ (on_cache' op src) = startup_files_ src ∧
  backup_ (on_cache' op src) = backup_ src ∧
  change_ (on_cache' op src) = change_ src ∧
  filesystem_watcher_ (on_cache' op src) = filesystem_watcher_ src.
Proof. unfold on_cache. by destruct (op (cache_ src)). Qed.

Lemma record_change_fields kind src :
  cache_ (record_change kind src) = cache_ src ∧
  loader_ (record_change kind src) = loader_ src ∧
  startup_files_ (record_change kind src) = startup_files_ src ∧
  backup_ (record_change kind src) = cache_current (cache_ src) ∧
  change_ (record_change kind src) = kind ∧
  filesystem_watcher_ (record_change kind src) = filesystem_watcher_ src.
Proof. done. Qed.

(** C5. [file_event(path, action)]: on [removed] the path is removed from
    the cache, after [backup_] and [change_ = replace_deleted] were recorded
    if the path is the current image's. On any other action ([modified],
    [created]): if the path is the current image's, [change_ = reload] is
    recorded with the current image as backup and [invalidate_current()] is
    called; if it is not, [add(path)] is called and the record is left
    alone. *)
Theorem file_event_cases p act src :
  let current := cache_current (cache_ src) in
  let src' := file_event' p act src in
  (act = action.removed → is_current image_path p current = true →
     backup_ src' = current ∧
     change_ src' = image_change.replace_deleted ∧
     cache_ src' = (cache_remove p (cache_ src)).1 ∧
     loader_ src' = run_callbacks' (cache_remove p (cache_ src)).2 (loader_ src)) ∧
  (act = action.removed → is_current image_path p current = false →
     backup_ src' = backup_ src ∧
     change_ src' = change_ src ∧
     cache_ src' = (cache_remove p (cache_ src)).1) ∧
  (act ≠ action.removed → is_current image_path p current = true →
     backup_ src' = current ∧
     change_ src' = image_change.reload ∧
     cache_ src' = (cache_invalidate_current (cache_ src)).1 ∧
     loader_ src' =
       run_callbacks' (cache_invalidate_current (cache_ src)).2 (loader_ src)) ∧
  (act = action.modified ∨ act = action.created →
   is_current image_path p current = false →
     backup_ src' = backup_ src ∧
     change_ src' = change_ src ∧
     cache_ src' = (cache_add p (cache_ src)).1 ∧
     loader_ src' = run_callbacks' (cache_add p (cache_ src)).2 (loader_ src)).
Proof.
  intros current src'. unfold src', file_event. fold current. split_and!.
  - intros -> ->. rewrite decide_True by done.
    destruct (on_cache_fields (cache_remove p)
                (record_change image_change.replace_deleted src))
      as (-> & -> & _ & -> & -> & _). done.
  - intros -> ->. rewrite decide_True by done.
    destruct (on_cache_fields (cache_remove p) src) as (-> & _ & _ & -> & -> & _).
    done.
  - intros Hact ->. rewrite decide_False by done.
    destruct (on_cache_fields cache_invalidate_current
                (record_change image_change.reload src))
      as (-> & -> & _ & -> & -> & _). done.
  - intros Hact ->. rewrite decide_False by (by destruct Hact as [-> | ->]).
    destruct (on_cache_fields (cache_add p) src) as (-> & -> & _ & -> & -> & _).
    done.
Qed.

Lemma populate_cache_watcher (watch_fs : bool) src :
  filesystem_watcher_ (populate_cache sort_greater operator_bool fs watch_fs src) =
  if watch_fs
  then watch (list_files fs (startup_files_ src)) (unwatch (filesystem_watcher_ src))
  else filesystem_watcher_ src.
Proof.
  unfold populate_cache.
  destruct (on_cache_fields (cache_set (list_files fs (startup_files_ src))) src)
    as (_ & _ & _ & _ & _ & Hw).
  destruct watch_fs; simpl; [by rewrite Hw|done].
Qed.

Lemma populate_cache_cache (watch_fs : bool) src :
  cache_ (populate_cache sort_greater operator_bool fs watch_fs src) =
  (cache_set (list_files fs (startup_files_ src)) (cache_ src)).1.
Proof.
  unfold populate_cache.
  destruct (on_cache_fields (cache_set (list_files fs (startup_files_ src))) src)
    as (Hc & _).
  by destruct watch_fs.
Qed.

(** C9, as the code has it. [populate_cache] sets the cache to the listed
    files. With [watch_fs] on, the watcher receives [unwatch()] and then
    [watch(files)] and watches exactly the listed files afterwards, also
    from [reload_file_list] and from the constructor; with [watch_fs] off
    the watcher is not touched. *)
Theorem populate_cache_rewatches (watch_fs : bool) src :
  let files := list_files fs (startup_files_ src) in
  let src' := populate_cache sort_greater operator_bool fs watch_fs src in
  cache_ src' = (cache_set files (cache_ src)).1 ∧
  (watch_fs = true →
     watched (filesystem_watcher_ src') = files ∧
     watcher_calls (filesystem_watcher_ src') =
       watcher_calls (filesystem_watcher_ src) ++ [called_unwatch; called_watch files] ∧
     watched (filesystem_watcher_
                (reload_file_list sort_greater operator_bool fs watch_fs src)) = files ∧
     ∀ fnames,
       watched (filesystem_watcher_
                  (construct sort_greater operator_bool fs watch_fs fnames src))
       = list_files fs (normalize_names fs fnames)) ∧
  (watch_fs = false → filesystem_watcher_ src' = filesystem_watcher_ src).
Proof.
  intros files src'. unfold src'.
  rewrite populate_cache_cache, populate_cache_watcher. fold files.
  split_and!; [done| |by intros ->].
  intros ->. split_and!.
  - done.
  - simpl. by rewrite <- app_assoc.
  - unfold reload_file_list. rewrite populate_cache_watcher.
    by destruct (on_cache_fields cache_invalidate_all
                   (record_change image_change.reload src)) as (_ & _ & -> & _).
  - intros fnames. unfold construct. rewrite populate_cache_watcher; simpl.
    destruct (normalize_names fs fnames) as [|f fs'] eqn:Hn; [done|].
    by destruct (on_cache_fields (cache_add (absolute fs f))
                   (ImageSource (cache_ src) (f :: fs') (backup_ src) (change_ src)
                      (filesystem_watcher_ src) (loader_ src)))
      as (_ & _ & -> & _).
Qed.
End source_facts.

(** *** The image source at work *)

(** The file of the current image is removed: the image is kept as backup,
    the change is [replace_deleted], and the cache is told to remove the
    path. *)
Lemma file_event_cases_witness :
  let src' := file_event merge_sort_greater is_loaded pics_path
                "/pics/a.png" action.removed (probe_source (Some 1)) in
  backup_ src' = Some 1 ∧
  change_ src' = image_change.replace_deleted ∧
  cache_ src' = ProbeCache (Some 1) [op_remove "/pics/a.png"] ∧
  loader_ src' = idle_loader.
Proof.
  exact (proj1 (file_event_cases merge_sort_greater is_loaded pics_path
                  "/pics/a.png" action.removed (probe_source (Some 1)))
               eq_refl eq_refl).
Defined.

(** With [watch_fs] on, the directory is listed and watched. *)
Lemma populate_cache_rewatches_witness :
  let src' := populate_cache merge_sort_greater is_loaded pics_fs true
                (probe_source None) in
  watched (filesystem_watcher_ src') = ["/pics/b.png"; "/pics/a.png"; "/pics"] ∧
  watcher_calls (filesystem_watcher_ src') =
    [called_unwatch; called_watch ["/pics/b.png"; "/pics/a.png"; "/pics"]].
Proof.
  destruct (proj1 (proj2 (populate_cache_rewatches merge_sort_greater is_loaded
                            pics_fs true (probe_source None))) eq_refl)
    as (Hwatched & Hcalls & _).
  exact (conj Hwatched Hcalls).
Defined.

(** C9 as worded fails: with [watch_fs] off, [populate_cache] lists three
    paths and the watcher goes on watching none. *)
Lemma populate_cache_without_watch_fs :
  list_files pics_fs (startup_files_ (probe_source None))
    = ["/pics/b.png"; "/pics/a.png"; "/pics"] ∧
  filesystem_watcher_
    (populate_cache merge_sort_greater is_loaded pics_fs false (probe_source None))
    = FsWatcher [] [] ∧
  ¬ rewatches_listed_files merge_sort_greater is_loaded pics_fs false
      (probe_source None).
Proof.
  split_and!; [reflexivity|reflexivity|].
  unfold rewatches_listed_files. vm_compute. discriminate.
Qed.

(** *** More on the scheduler *)

Section scheduler_more.
Variable sort_greater : list prio_shared_image → list prio_shared_image.
Hypothesis sort_conforms : conforming_sort sort_greater.

Implicit Types (s : scheduler) (image img : image_ptr) (priority p : N).

(** An image that is queued once is queued at one priority. *)
Lemma queued_once_one_priority (q : list prio_shared_image) img p1 p2 :
  NoDup q.*2 → (p1, img) ∈ q → (p2, img) ∈ q → p1 = p2.
Proof.
  induction q as [|[p0 j] q IH]; intros Hnd H1 H2.
  - by apply elem_of_nil in H1.
  - rewrite fmap_cons in Hnd. apply NoDup_cons in Hnd as [Hj Hnd]. simpl in Hj.
    apply elem_of_cons in H1 as [H1|H1]; apply elem_of_cons in H2 as [H2|H2];
      simplify_eq.
    + done.
    + destruct Hj. apply list_elem_of_fmap. by exists (p2, j).
    + destruct Hj. apply list_elem_of_fmap. by exists (p1, j).
    + by apply IH.
Qed.

(** X1. Every state reached from the empty scheduler has its queue sorted by
    priority, greatest first, with no image queued twice, and no image twice in
    the unscheduled set. *)
Theorem reachable_scheduler_well_formed (cs : list scheduler_call) :
  let s := do_calls sort_greater cs empty_scheduler in
  Sorted prio_ge (scheduled_images_ s) ∧
  NoDup (queued_images s) ∧
  NoDup (unscheduled_images_ s).
Proof.
  simpl. destruct (do_calls_inv sort_greater sort_conforms cs empty_scheduler
                     empty_scheduler_inv) as [H1 H2 H3 _].
  done.
Qed.

(** X2. The last [schedule_image] decides: after [schedule_image(image,
    priority)] on a well-formed scheduler the image is queued at [priority]
    and at no other priority. *)
Theorem schedule_image_last_write_wins image priority s :
  scheduler_inv s →
  ∀ p, (p, image) ∈ scheduled_images_ (schedule_image sort_greater image priority s)
       ↔ p = priority.
Proof.
  intros Hinv p.
  pose proof (schedule_image_inv sort_greater sort_conforms image priority s Hinv)
    as [_ Hnd _ _].
  pose proof (schedule_image_queues sort_greater sort_conforms image priority s) as Hin.
  split; [|by intros ->].
  intros Hp. by eapply queued_once_one_priority.
Qed.

(** X3. Scheduling an image twice at the same priority is the same as
    scheduling it once. *)
Theorem schedule_image_twice image priority s :
  scheduler_inv s →
  schedule_image sort_greater image priority
    (schedule_image sort_greater image priority s)
  = schedule_image sort_greater image priority s.
Proof.
  intros Hinv.
  set (s' := schedule_image sort_greater image priority s).
  pose proof (schedule_image_inv sort_greater sort_conforms image priority s Hinv)
    as [_ Hnd _ _].
  pose proof (schedule_image_queues sort_greater sort_conforms image priority s) as Hin.
  fold s' in Hnd, Hin.
  destruct (find_scheduled image (scheduled_images_ s')) as [[i [p j]]|] eqn:Hf.
  - apply find_scheduled_Some in Hf as Hf'. destruct Hf' as [Hi Hj].
    simpl in Hj. subst j.
    assert (p = priority) as ->.
    { eapply queued_once_one_priority; [exact Hnd| |exact Hin].
      by eapply list_elem_of_lookup_2. }
    by eapply schedule_image_same.
  - apply find_scheduled_None in Hf. destruct Hf.
    apply list_elem_of_fmap. by exists (priority, image).
Qed.
(** [schedule_image] keeps the entries of the other images. *)
Lemma schedule_image_other_entries image priority s (e : prio_shared_image) :
  e.2 ≠ image →
  e ∈ scheduled_images_ (schedule_image sort_greater image priority s)
  ↔ e ∈ scheduled_images_ s.
Proof.
  intros He.
  destruct (decide (image ∈ queued_images s)) as [Hin|Hin].
  - apply find_scheduled_elem_of in Hin as (i & p0 & Hf).
    destruct (decide (p0 = priority)) as [->|Hp].
    + by rewrite (schedule_image_same sort_greater _ _ _ _ Hf).
    + rewrite (schedule_image_changed sort_greater _ _ _ _ _ Hf Hp); simpl.
      rewrite (proj1 (sort_conforms _)).
      apply find_scheduled_Some in Hf as [Hi _].
      rewrite insert_take_drop by (by eapply lookup_lt_Some).
      rewrite <- (take_drop_middle _ i _ Hi) at 3.
      rewrite !elem_of_app, !elem_of_cons.
      assert (e ≠ (priority, image)) by (by intros ->).
      assert (e ≠ (p0, image)) by (by intros ->).
      tauto.
  - rewrite (schedule_image_fresh sort_greater _ _ _ Hin); simpl.
    rewrite (proj1 (sort_conforms _)), elem_of_app, list_elem_of_singleton.
    assert (e ≠ (priority, image)) by (by intros ->).
    tauto.
Qed.

(** X4. [schedule_image] followed by [unschedule_image] for the same image,
    on a well-formed scheduler, leaves the image neither queued nor in the
    unscheduled set (a mark it had before is gone), and the entries and
    marks of all other images as they were. *)
Theorem schedule_then_unschedule image priority s :
  scheduler_inv s →
  let s' := unschedule_image image (schedule_image sort_greater image priority s) in
  (image ∉ queued_images s') ∧
  (image ∉ unscheduled_images_ s') ∧
  (∀ e : prio_shared_image, e.2 ≠ image →
     (e ∈ scheduled_images_ s' ↔ e ∈ scheduled_images_ s)) ∧
  (∀ j, j ≠ image → (j ∈ unscheduled_images_ s' ↔ j ∈ unscheduled_images_ s)) ∧
  Sorted prio_ge (scheduled_images_ s').
Proof.
  intros Hinv s'.
  set (s1 := schedule_image sort_greater image priority s) in *.
  pose proof (schedule_image_inv sort_greater sort_conforms image priority s Hinv)
    as Hinv1. fold s1 in Hinv1.
  pose proof (schedule_image_queues sort_greater sort_conforms image priority s) as Hin.
  fold s1 in Hin.
  pose proof (schedule_image_purges sort_greater image priority s Hinv) as Hpurged.
  fold s1 in Hpurged.
  pose proof (unschedule_image_inv image s1 Hinv1) as [Hsorted _ _ _]. fold s' in Hsorted.
  destruct (find_scheduled image (scheduled_images_ s1)) as [[i e0]|] eqn:Hf.
  2:{ apply find_scheduled_None in Hf. destruct Hf.
      apply list_elem_of_fmap. by exists (priority, image). }
  assert (s' = Scheduler (delete i (scheduled_images_ s1)) (unscheduled_images_ s1))
    as Hs'.
  { unfold s', unschedule_image. by rewrite Hf. }
  apply find_scheduled_Some in Hf as [Hi He0].
  pose proof (delete_Permutation _ _ _ Hi) as Hperm.
  destruct Hinv1 as [_ Hnd1 _ _]. unfold queued_images in Hnd1.
  rewrite Hperm, fmap_cons, He0 in Hnd1. apply NoDup_cons in Hnd1 as [Hnot _].
  rewrite Hs' in Hsorted |- *. unfold queued_images; simpl.
  split_and!; [done|done| | |exact Hsorted].
  - intros e He.
    rewrite <- (schedule_image_other_entries image priority s e He). fold s1.
    rewrite Hperm at 2. rewrite elem_of_cons.
    split; [by right|]. intros [->|?]; [done|done].
  - intros j Hj. split.
    + apply schedule_image_keeps_others.
    + intros Hu. unfold s1.
      destruct (schedule_image_unscheduled sort_greater image priority s) as [->| ->];
        [done|by apply purge_other].
Qed.

(** X5. A second [unschedule_image] for the same image changes nothing when
    the image had no pending entry; when it had one, the first call erases
    the entry and the second puts the image into the unscheduled set. *)
Theorem unschedule_image_twice image s :
  (image ∉ queued_images s →
     unschedule_image image (unschedule_image image s) = unschedule_image image s) ∧
  (scheduler_inv s → image ∈ queued_images s →
     (image ∉ queued_images (unschedule_image image (unschedule_image image s))) ∧
     unscheduled_images_ (unschedule_image image (unschedule_image image s))
     = unscheduled_images_ s ++ [image]).
Proof.
  split.
  - intros Hq%find_scheduled_None. unfold unschedule_image at 2 3. rewrite Hq.
    destruct (find_unscheduled image (unscheduled_images_ s)) as [[j x]|] eqn:Hu.
    + unfold unschedule_image. by rewrite Hq, Hu.
    + unfold unschedule_image; simpl. rewrite Hq.
      destruct (find_unscheduled image (unscheduled_images_ s ++ [image]))
        as [[j x]|] eqn:Hu'; [done|].
      apply find_unscheduled_None in Hu'. destruct Hu'.
      apply elem_of_app. right. by left.
  - intros Hinv Hin.
    pose proof (inv_disjoint s Hinv image Hin) as Hnot.
    pose proof (inv_queue_nodup s Hinv) as Hnd.
    apply find_scheduled_elem_of in Hin as (i & p & Hf).
    assert (unschedule_image image s
            = Scheduler (delete i (scheduled_images_ s)) (unscheduled_images_ s)) as ->.
    { unfold unschedule_image. by rewrite Hf. }
    apply find_scheduled_Some in Hf as [Hi _].
    assert (image ∉ (delete i (scheduled_images_ s)).*2) as Hgone.
    { unfold queued_images in Hnd.
      rewrite (delete_Permutation _ _ _ Hi), fmap_cons in Hnd.
      by apply NoDup_cons in Hnd as [? _]. }
    unfold unschedule_image; simpl.
    rewrite (proj2 (find_scheduled_None _ _) Hgone).
    rewrite (proj2 (find_unscheduled_None _ _) Hnot). done.
Qed.

Lemma next_scheduled_image_snoc (q : list prio_shared_image) e u :
  next_scheduled_image (Scheduler (q ++ [e]) u) = (Some e.2, Scheduler q u).
Proof.
  unfold next_scheduled_image; simpl. by rewrite last_snoc, take_pred_length_snoc.
Qed.

Lemma next_scheduled_images_empty n u :
  next_scheduled_images n (Scheduler [] u) = (replicate n None, Scheduler [] u).
Proof. induction n as [|n IH]; [done|]. simpl. by rewrite IH. Qed.

(** X6. Calling [next_scheduled_image] again and again hands out the queued
    images from the back of the queue to its front, each once, empties the
    queue and leaves the unscheduled set alone; every further call returns
    the empty pointer. On a sorted queue the priority values handed out never
    decrease. *)
Theorem next_scheduled_images_back_to_front (q : list prio_shared_image) u n :
  next_scheduled_images (length q + n) (Scheduler q u)
  = ((Some <$> reverse q.*2) ++ replicate n None, Scheduler [] u) ∧
  (Sorted prio_ge q → Sorted (flip prio_ge) (reverse q)).
Proof.
  split; [|apply Sorted_reverse].
  induction q as [|e q IH] using rev_ind.
  - simpl. apply next_scheduled_images_empty.
  - rewrite length_app; simpl.
    replace (length q + 1 + n) with (S (length q + n)) by lia.
    simpl. rewrite next_scheduled_image_snoc, IH.
    by rewrite fmap_app, reverse_app.
Qed.
End scheduler_more.

Lemma reachable_scheduler_well_formed_witness :
  let s := do_calls merge_sort_greater
             [call_schedule 1 3; call_schedule 2 3; call_unschedule 4; call_schedule 1 0;
              call_next; call_unschedule 2]
             empty_scheduler in
  Sorted prio_ge (scheduled_images_ s) ∧
  NoDup (queued_images s) ∧
  NoDup (unscheduled_images_ s).
Proof.
  exact (reachable_scheduler_well_formed merge_sort_greater merge_sort_greater_conforming
           [call_schedule 1 3; call_schedule 2 3; call_unschedule 4; call_schedule 1 0;
            call_next; call_unschedule 2]).
Defined.

(** Image 1 is queued at 3 and scheduled at 0: it is found at 0 only. *)
Lemma schedule_image_last_write_wins_witness :
  let s := do_calls merge_sort_greater [call_schedule 1 3; call_schedule 2 3]
             empty_scheduler in
  scheduler_inv s ∧
  ∀ p, (p, 1) ∈ scheduled_images_ (schedule_image merge_sort_greater 1 0 s) ↔ p = 0%N.
Proof.
  pose proof (do_calls_inv merge_sort_greater merge_sort_greater_conforming
                [call_schedule 1 3; call_schedule 2 3] empty_scheduler
                empty_scheduler_inv) as Hinv.
  split; [exact Hinv|].
  exact (schedule_image_last_write_wins merge_sort_greater merge_sort_greater_conforming
           1 0%N _ Hinv).
Defined.

Lemma schedule_image_twice_witness :
  let s := do_calls merge_sort_greater [call_schedule 1 3; call_unschedule 2]
             empty_scheduler in
  scheduler_inv s ∧
  schedule_image merge_sort_greater 2 3 (schedule_image merge_sort_greater 2 3 s)
  = schedule_image merge_sort_greater 2 3 s.
Proof.
  pose proof (do_calls_inv merge_sort_greater merge_sort_greater_conforming
                [call_schedule 1 3; call_unschedule 2] empty_scheduler
                empty_scheduler_inv) as Hinv.
  split; [exact Hinv|].
  exact (schedule_image_twice merge_sort_greater merge_sort_greater_conforming
           2 3%N _ Hinv).
Defined.

(** Image 2 is marked; scheduling and unscheduling it removes the mark. *)
Lemma schedule_then_unschedule_witness :
  let s := do_calls merge_sort_greater [call_schedule 1 3; call_unschedule 2]
             empty_scheduler in
  let s' := unschedule_image 2 (schedule_image merge_sort_greater 2 5 s) in
  unscheduled_images_ s = [2] ∧
  scheduler_inv s ∧
  (2 ∉ queued_images s') ∧
  (2 ∉ unscheduled_images_ s').
Proof.
  pose proof (do_calls_inv merge_sort_greater merge_sort_greater_conforming
                [call_schedule 1 3; call_unschedule 2] empty_scheduler
                empty_scheduler_inv) as Hinv.
  split; [reflexivity|]. split; [exact Hinv|].
  pose proof (schedule_then_unschedule merge_sort_greater merge_sort_greater_conforming
                2 5%N _ Hinv) as (H1 & H2 & _).
  exact (conj H1 H2).
Defined.

(** Image 1 is queued: unscheduled twice, it ends up marked. *)
Lemma unschedule_image_twice_witness :
  let s := do_calls merge_sort_greater [call_schedule 1 3] empty_scheduler in
  scheduler_inv s ∧
  (1 ∉ queued_images (unschedule_image 1 (unschedule_image 1 s))) ∧
  unscheduled_images_ (unschedule_image 1 (unschedule_image 1 s))
  = unscheduled_images_ s ++ [1].
Proof.
  pose proof (do_calls_inv merge_sort_greater merge_sort_greater_conforming
                [call_schedule 1 3] empty_scheduler empty_scheduler_inv) as Hinv.
  split; [exact Hinv|].
  refine (proj2 (unschedule_image_twice 1 _) Hinv _).
  apply (bool_decide_unpack _). vm_compute. exact I.
Defined.

Lemma next_scheduled_images_back_to_front_witness :
  next_scheduled_images (3 + 1) (Scheduler [(5%N, 2); (1%N, 3); (0%N, 1)] [4])
  = ([Some 1; Some 3; Some 2; None], Scheduler [] [4]).
Proof.
  exact (proj1 (next_scheduled_images_back_to_front [(5%N, 2); (1%N, 3); (0%N, 1)] [4] 1)).
Defined.

(** *** More on the worker loop *)

Section worker_more.
Variable sort_greater : list prio_shared_image → list prio_shared_image.
Variable operator_bool : image_state → bool.
Hypothesis sort_conforms : conforming_sort sort_greater.

Implicit Types (l : loader) (img : image_ptr) (e : event) (es : list event).

Local Abbreviation step' := (step sort_greater operator_bool).
Local Abbreviation run' := (run sort_greater operator_bool).

Lemma step_scheduler_inv e l :
  scheduler_inv (sched l) → scheduler_inv (sched (step' e l)).
Proof.
  intros Hinv. destruct e as [j p|j|j| |ok]; simpl; try done.
  - by apply schedule_image_inv.
  - by apply unschedule_image_inv.
  - unfold work_loop_step. destruct (pc l) as [|j|j| | |]; simpl.
    3: { destruct Hinv as [H1 H2 _ _].
         destruct (find_unscheduled j _); simpl;
           (split; simpl; [done|done|constructor|]);
           intros img _ Hin; by apply elem_of_nil in Hin. }
    2-5: done.
    destruct (stop_requested l); [done|].
    pose proof (next_scheduled_image_inv (sched l) Hinv) as Hnext.
    destruct (next_scheduled_image (sched l)) as [[j|] s']; simpl in *; [|done].
    by destruct (operator_bool (images l j)).
Qed.

Lemma run_scheduler_inv es l :
  scheduler_inv (sched l) → scheduler_inv (sched (run' es l)).
Proof.
  revert l. induction es as [|e es IH]; intros l Hinv; [done|].
  simpl. apply IH. by apply step_scheduler_inv.
Qed.

(** X7. Whatever the other threads and the worker do, the scheduler stays
    well formed: the queue sorted, no image queued twice or marked twice, no
    image both queued and marked. *)
Theorem scheduler_well_formed_throughout es l :
  scheduler_inv (sched l) →
  let s := sched (run' es l) in
  Sorted prio_ge (scheduled_images_ s) ∧
  NoDup (queued_images s) ∧
  NoDup (unscheduled_images_ s) ∧
  ∀ img, ¬ (img ∈ queued_images s ∧ img ∈ unscheduled_images_ s).
Proof.
  intros Hinv s. destruct (run_scheduler_inv es l Hinv) as [H1 H2 H3 H4].
  split_and!; [done|done|done|]. intros img [Hq Hu]. by apply (H4 img).
Qed.

Local Abbreviation apart_step' := (apart_step sort_greater operator_bool).
Local Abbreviation apart_run' := (apart_run sort_greater operator_bool).

(** Taken alone from before the stop test, the steps of
    [work_loop_apart_step] add up to the step of [work_loop_step]: two of
    them at the loop head when no stop is requested, one everywhere else. *)
Lemma work_loop_step_apart ok l :
  let w := LoopState l false in
  LoopState (work_loop_step operator_bool ok l) false
  = if decide (pc l = at_loop_head ∧ stop_requested l = false)
    then work_loop_apart_step operator_bool ok (work_loop_apart_step operator_bool ok w)
    else work_loop_apart_step operator_bool ok w.
Proof.
  intros w. unfold w, work_loop_apart_step, work_loop_step. destruct l as [s m b p c].
  cbn [shared past_stop_test pc stop_requested sched images worker_calls].
  destruct p, b; cbn; try done.
  destruct (next_scheduled_image s) as [[j|] s']; [|done].
  by destruct (operator_bool (m j)).
Qed.

Lemma apart_step_after_stop e (w : loop_state) :
  stop_requested (shared w) = true →
  stop_requested (shared (apart_step' e w)) = true ∧
  (past_stop_test w = false →
     past_stop_test (apart_step' e w) = false ∧
     load_calls (apart_step' e w) = load_calls w) ∧
  (length (load_calls (apart_step' e w))
     + (if past_stop_test (apart_step' e w) then 1 else 0)
   ≤ length (load_calls w) + (if past_stop_test w then 1 else 0)) ∧
  (is_client e = true → steps_to_exit (apart_step' e w) = steps_to_exit w) ∧
  (is_client e = false → steps_to_exit (apart_step' e w) ≤ pred (steps_to_exit w)).
Proof.
  intros Hstop. destruct w as [[s m st p c] b]. simpl in Hstop. subst st.
  destruct e as [j q|j|j| |ok]; simpl.
  1-4: by split_and!.
  unfold work_loop_apart_step, work_loop_step, load_calls, steps_to_exit.
  cbn [shared past_stop_test pc stop_requested sched images worker_calls].
  destruct p as [|j|j| | |], b;
    cbn [shared past_stop_test pc stop_requested sched images worker_calls].
  all: try (split_and!; [done|done|lia|done|lia]).
  - destruct (next_scheduled_image s) as [[j|] s']; [destruct (operator_bool (m j))|];
      cbn [shared past_stop_test pc stop_requested sched images worker_calls];
      rewrite ?filter_app, ?length_app; simpl; (split_and!; [done|done|lia|done|lia]).
  - destruct (find_unscheduled j _);
      cbn [shared past_stop_test pc stop_requested sched images worker_calls];
      rewrite ?filter_app; simpl; rewrite ?app_nil_r;
      (split_and!; [done|done|lia|done|lia]).
  - destruct (find_unscheduled j _);
      cbn [shared past_stop_test pc stop_requested sched images worker_calls];
      rewrite ?filter_app; simpl; rewrite ?app_nil_r;
      (split_and!; [done|done|lia|done|lia]).
Qed.

(** X8. A stop request does not keep the worker from one more [load()]:
    past the stop test of its inner loop (l.171) it still dequeues an image
    and loads it (l.172-176). It is one [load()] at most, whatever is
    scheduled afterwards, and none when the stop request comes before the
    test. *)
Theorem one_load_at_most_after_stop es (w : loop_state) :
  stop_requested (shared w) = true →
  (past_stop_test w = false → load_calls (apart_run' es w) = load_calls w) ∧
  length (load_calls (apart_run' es w)) ≤ S (length (load_calls w)).
Proof.
  intros Hstop. split.
  - revert w Hstop. induction es as [|e es IH]; intros w Hstop Hpast; [done|].
    simpl. destruct (apart_step_after_stop e w Hstop) as (Hstop' & Hnone & _).
    destruct (Hnone Hpast) as [Hpast' Hcalls]. by rewrite IH, Hcalls.
  - assert (length (load_calls (apart_run' es w))
              + (if past_stop_test (apart_run' es w) then 1 else 0)
            ≤ length (load_calls w) + (if past_stop_test w then 1 else 0)) as Hle.
    { revert w Hstop. induction es as [|e es IH]; intros w Hstop; [done|].
      simpl. destruct (apart_step_after_stop e w Hstop) as (Hstop' & _ & Hone & _).
      specialize (IH _ Hstop'). lia. }
    destruct (past_stop_test w), (past_stop_test (apart_run' es w)); lia.
Qed.

(** X9. Once a stop is requested, [work_loop] returns after at most five
    steps of the worker thread, whatever the other threads do in between:
    past the stop test it may dequeue an image, load it, check the
    unscheduled set, see the stop request at the loop head and again after
    the inner loop. From the other places it is fewer, by [steps_to_exit];
    a wake-up from [worker_wakeup_.wait] counts as a step. *)
Theorem work_loop_returns_within_five_steps es (w : loop_state) :
  stop_requested (shared w) = true →
  steps_to_exit w ≤ length (filter (λ e, is_client e = false) es) →
  pc (shared (apart_run' es w)) = exited ∧ steps_to_exit w ≤ 5.
Proof.
  intros Hstop Hlen. split.
  2: { unfold steps_to_exit. destruct (pc (shared w)), (past_stop_test w); lia. }
  revert w Hstop Hlen. induction es as [|e es IH]; intros w Hstop Hlen.
  - simpl in *. unfold steps_to_exit in Hlen.
    destruct (pc (shared w)), (past_stop_test w); simpl in *; try lia; done.
  - simpl. destruct (apart_step_after_stop e w Hstop) as (Hstop' & _ & _ & Hclient & Hworker).
    apply IH; [done|].
    rewrite filter_cons in Hlen. destruct (is_client e) eqn:He.
    + rewrite decide_False in Hlen by done. by rewrite Hclient.
    + rewrite decide_True in Hlen by done. simpl in Hlen.
      specialize (Hworker eq_refl). lia.
Qed.

Lemma step_loads_accounted es e l :
  loads_accounted es l → loads_accounted (es ++ [e]) (step' e l).
Proof.
  intros (Hq & Hl & Hf & Hc).
  assert (∀ img, (∃ p, ev_schedule img p ∈ es) → ∃ p, ev_schedule img p ∈ es ++ [e])
    as Hmono.
  { intros img [p Hp]. exists p. apply elem_of_app. by left. }
  destruct e as [j p|j|j| |ok]; simpl.
  - split_and!; simpl; [|by auto|done|done].
    intros img. rewrite (schedule_image_queued sort_greater sort_conforms).
    case_decide; [by auto|]. intros [->|Hin]%elem_of_cons; [|by auto].
    exists p. apply elem_of_app. right. by left.
  - split_and!; simpl; [|by auto|done|done].
    intros img Hin. apply Hmono, Hq.
    by eapply unschedule_image_queued.
  - split_and!; simpl; by auto.
  - split_and!; simpl; by auto.
  - unfold work_loop_step, loads_accounted, in_flight in *.
    destruct (pc l) as [|j|j| | |] eqn:Hpc; simpl.
    + destruct (stop_requested l); simpl.
      { split_and!; [by auto|by auto|by intros img [?|?]|done]. }
      destruct (next_scheduled_image (sched l)) as [[j|] s'] eqn:Hnext.
      * apply next_scheduled_image_queued in Hnext as [Hj Hsub].
        destruct (operator_bool (images l j)); simpl.
        -- split_and!; [by auto|by auto|by intros img [?|?]|done].
        -- split_and!.
           ++ by auto.
           ++ intros img [Hin|Hin]%elem_of_app; [by auto|].
              apply list_elem_of_singleton in Hin as [= ->]. by auto.
           ++ intros img [[= ->]|?]; [|done]. apply elem_of_app. right. by left.
           ++ intros img [Hin|Hin]%elem_of_app.
              ** apply elem_of_app. left. by auto.
              ** by apply list_elem_of_singleton in Hin.
      * apply next_scheduled_image_None_queued in Hnext as ->.
        split_and!; [by auto|by auto|by intros img [?|?]|done].
    + split_and!; [by auto|by auto| |done].
      intros img [?|[= ->]]; [done|]. apply Hf. by left.
    + assert (called_load j ∈ worker_calls l) as Hj by (apply Hf; by right).
      destruct (find_unscheduled j _); simpl.
      * split_and!; [by auto| |by intros img [?|?]|].
        -- intros img [Hin|Hin]%elem_of_app; [by auto|].
           by apply list_elem_of_singleton in Hin.
        -- intros img [Hin|Hin]%elem_of_app; apply elem_of_app; left; [by auto|].
           by apply list_elem_of_singleton in Hin as [= ->].
      * split_and!; [by auto|by auto|by intros img [?|?]|done].
    + split_and!; [by auto|by auto| |done].
      by destruct (stop_requested l); intros img [?|?].
    + split_and!; [by auto|by auto|by intros img [?|?]|done].
    + rewrite Hpc. split_and!; [by auto|by auto|by intros img [?|?]|done].
Qed.

(** X10. From the idle loader, the worker calls [load()] only on images that
    [schedule_image] was called for, and [clear()] only on images it has
    called [load()] on. *)
Theorem worker_loads_only_scheduled es img :
  (called_load img ∈ worker_calls (run' es idle_loader) →
     ∃ p, ev_schedule img p ∈ es) ∧
  (called_clear img ∈ worker_calls (run' es idle_loader) →
     called_load img ∈ worker_calls (run' es idle_loader)).
Proof.
  assert (loads_accounted es (run' es idle_loader)) as (_ & Hl & _ & Hc).
  { induction es as [|e es IH] using rev_ind.
    - split_and!; simpl; intros j Hj; try (by apply elem_of_nil in Hj).
      by destruct Hj.
    - rewrite (run_snoc sort_greater operator_bool). by apply step_loads_accounted. }
  split; [apply Hl|apply Hc].
Qed.

(** X11. [unload_image] on a well-formed scheduler: afterwards the image has
    no pending entry and is unloaded, it is in the unscheduled set if it had
    no pending entry before, and neither the other images nor the worker are
    touched. *)
Theorem unload_image_unschedules_and_clears img l :
  scheduler_inv (sched l) →
  let l' := unload_image sort_greater operator_bool img l in
  (img ∉ queued_images (sched l')) ∧
  images l' img = unloaded ∧
  (img ∉ queued_images (sched l) → img ∈ unscheduled_images_ (sched l')) ∧
  (∀ j, j ≠ img → images l' j = images l j) ∧
  pc l' = pc l ∧ worker_calls l' = worker_calls l.
Proof.
  intros Hinv l'. unfold l', unload_image; simpl.
  split_and!; [|by unfold set_image; rewrite decide_True| | |done|done].
  - intros Hin. pose proof (inv_queue_nodup _ Hinv) as Hnd.
    unfold unschedule_image in Hin.
    destruct (find_scheduled img (scheduled_images_ (sched l))) as [[i e]|] eqn:Hfind.
    + apply find_scheduled_Some in Hfind as [Hi He].
      unfold queued_images in *; simpl in Hin. rewrite list_fmap_delete in Hin.
      assert ((scheduled_images_ (sched l)).*2 !! i = Some img) as Hi'.
      { by rewrite list_lookup_fmap, Hi; simpl; rewrite He. }
      rewrite (delete_Permutation _ _ _ Hi') in Hnd.
      by apply NoDup_cons in Hnd as [? _].
    + apply find_scheduled_None in Hfind.
      by destruct (find_unscheduled img (unscheduled_images_ (sched l))).
  - apply unschedule_image_marks.
  - intros j Hj. unfold set_image. by rewrite decide_False.
Qed.
End worker_more.

Lemma idle_scheduler_inv : scheduler_inv (sched idle_loader).
Proof. apply empty_scheduler_inv. Qed.

Lemma scheduler_well_formed_throughout_witness :
  let s := sched (run merge_sort_greater is_loaded
                    [ev_schedule 1 0; ev_schedule 2 0; ev_worker true; ev_unschedule 2;
                     ev_unschedule 3; ev_worker true; ev_worker true]
                    idle_loader) in
  Sorted prio_ge (scheduled_images_ s) ∧
  NoDup (queued_images s) ∧
  NoDup (unscheduled_images_ s) ∧
  ∀ img, ¬ (img ∈ queued_images s ∧ img ∈ unscheduled_images_ s).
Proof.
  exact (scheduler_well_formed_throughout merge_sort_greater is_loaded
           merge_sort_greater_conforming
           [ev_schedule 1 0; ev_schedule 2 0; ev_worker true; ev_unschedule 2;
            ev_unschedule 3; ev_worker true; ev_worker true]
           idle_loader idle_scheduler_inv).
Defined.

(** Image 1 is scheduled and the worker passes its stop test; then the
    stop is requested. The worker loads image 1 all the same. Image 2,
    scheduled afterwards, is never loaded. *)
Lemma one_load_at_most_after_stop_witness :
  let w := apart_run merge_sort_greater is_loaded
             [ev_schedule 1 0; ev_worker true; ev_request_stop]
             (LoopState idle_loader false) in
  let w' := apart_run merge_sort_greater is_loaded
              [ev_worker true; ev_schedule 2 0; ev_worker true; ev_worker true;
               ev_worker true; ev_worker true] w in
  stop_requested (shared w) = true ∧
  load_calls w = [] ∧
  load_calls w' = [called_load 1] ∧
  pc (shared w') = exited ∧
  length (load_calls w') ≤ S (length (load_calls w)).
Proof.
  split; [reflexivity|]. split; [reflexivity|]. split; [reflexivity|].
  split; [reflexivity|].
  refine (proj2 (one_load_at_most_after_stop merge_sort_greater is_loaded
                   [ev_worker true; ev_schedule 2 0; ev_worker true; ev_worker true;
                    ev_worker true; ev_worker true]
                   (apart_run merge_sort_greater is_loaded
                      [ev_schedule 1 0; ev_worker true; ev_request_stop]
                      (LoopState idle_loader false))
                   _)).
  reflexivity.
Defined.

(** The worker is past its stop test when the stop is requested: it takes
    all five steps to return. *)
Lemma work_loop_returns_within_five_steps_witness :
  let w := apart_run merge_sort_greater is_loaded
             [ev_schedule 1 0; ev_worker true; ev_request_stop]
             (LoopState idle_loader false) in
  let es := [ev_worker true; ev_schedule 2 0; ev_worker true; ev_worker true;
             ev_unschedule 2; ev_worker true; ev_worker true] in
  stop_requested (shared w) = true ∧ steps_to_exit w = 5 ∧
  pc (shared (apart_run merge_sort_greater is_loaded (take 6 es) w)) ≠ exited ∧
  pc (shared (apart_run merge_sort_greater is_loaded es w)) = exited.
Proof.
  split; [reflexivity|]. split; [reflexivity|]. split; [by vm_compute|].
  refine (proj1 (work_loop_returns_within_five_steps merge_sort_greater is_loaded
                   [ev_worker true; ev_schedule 2 0; ev_worker true; ev_worker true;
                    ev_unschedule 2; ev_worker true; ev_worker true]
                   (apart_run merge_sort_greater is_loaded
                      [ev_schedule 1 0; ev_worker true; ev_request_stop]
                      (LoopState idle_loader false))
                   _ _)).
  - reflexivity.
  - vm_compute. lia.
Defined.

Lemma worker_loads_only_scheduled_witness :
  let es := [ev_schedule 1 0; ev_worker true; ev_unschedule 1; ev_worker true;
             ev_worker true] in
  called_load 1 ∈ worker_calls (run merge_sort_greater is_loaded es idle_loader) ∧
  called_clear 1 ∈ worker_calls (run merge_sort_greater is_loaded es idle_loader) ∧
  ∃ p, ev_schedule 1 p ∈ es.
Proof.
  assert (called_clear 1 ∈ worker_calls
            (run merge_sort_greater is_loaded
               [ev_schedule 1 0; ev_worker true; ev_unschedule 1; ev_worker true;
                ev_worker true] idle_loader)) as Hclear.
  { right. left. }
  pose proof (worker_loads_only_scheduled merge_sort_greater is_loaded
                merge_sort_greater_conforming
                [ev_schedule 1 0; ev_worker true; ev_unschedule 1; ev_worker true;
                 ev_worker true] 1) as [Hsched Hload].
  exact (conj (Hload Hclear) (conj Hclear (Hsched (Hload Hclear)))).
Defined.

Lemma unload_image_unschedules_and_clears_witness :
  let l := run merge_sort_greater is_loaded
             [ev_schedule 1 0; ev_schedule 2 1; ev_worker true] idle_loader in
  let l' := unload_image merge_sort_greater is_loaded 1 l in
  pc l = in_load 1 ∧
  (1 ∉ queued_images (sched l')) ∧
  images l' 1 = unloaded ∧
  1 ∈ unscheduled_images_ (sched l').
Proof.
  split; [reflexivity|].
  pose proof (run_scheduler_inv merge_sort_greater is_loaded merge_sort_greater_conforming
                [ev_schedule 1 0; ev_schedule 2 1; ev_worker true]
                idle_loader idle_scheduler_inv) as Hinv.
  pose proof (unload_image_unschedules_and_clears merge_sort_greater is_loaded 1 _ Hinv)
    as (H1 & H2 & H3 & _).
  split; [exact H1|]. split; [exact H2|]. apply H3.
  apply (bool_decide_unpack _). vm_compute. exact I.
Defined.

(** *** Listing the startup files *)

Lemma elem_of_unique (x : path) l : x ∈ unique l ↔ x ∈ l.
Proof.
  induction l as [|y l IH]; [done|]. simpl.
  destruct l as [|z l]; [done|].
  case_decide as Hyz.
  - subst z. rewrite IH, !elem_of_cons. tauto.
  - rewrite elem_of_cons, IH, !elem_of_cons. tauto.
Qed.

Lemma head_unique (x : path) l : head (unique (x :: l)) = Some x.
Proof.
  revert x. induction l as [|y l IH]; intros x; [done|].
  change (unique (x :: y :: l))
    with (if decide (x = y) then unique (y :: l) else x :: unique (y :: l)).
  case_decide as Hxy; [|done]. subst y. apply IH.
Qed.

Section path_order.
Variable gt : path → path → bool.

Lemma insert_greater_Permutation x l : insert_greater gt x l ≡ₚ x :: l.
Proof.
  induction l as [|y l IH]; simpl; [done|].
  destruct (gt y x); [|done]. by rewrite IH, Permutation_swap.
Qed.

Lemma sort_paths_greater_Permutation l : sort_paths_greater gt l ≡ₚ l.
Proof.
  induction l as [|x l IH]; simpl; [done|].
  unfold sort_paths_greater in *; simpl.
  by rewrite insert_greater_Permutation, IH.
Qed.

(** The order of [std::filesystem::path] is a strict total order. *)
Hypothesis gt_asym : ∀ a b, gt a b = true → gt b a = false.
Hypothesis gt_trans : ∀ a b c, gt a b = true → gt b c = true → gt a c = true.
Hypothesis gt_total : ∀ a b, a = b ∨ gt a b = true ∨ gt b a = true.

Lemma insert_greater_Sorted x l :
  Sorted (λ a b, gt b a = false) l →
  Sorted (λ a b, gt b a = false) (insert_greater gt x l).
Proof.
  induction 1 as [|y l Hl IH Hhd]; simpl; [by repeat constructor|].
  destruct (gt y x) eqn:Hyx.
  - constructor; [done|].
    destruct Hhd as [|z l Hz]; simpl.
    + constructor. by apply gt_asym.
    + destruct (gt z x); constructor; [done|by apply gt_asym].
  - constructor; [by constructor|by constructor].
Qed.

Lemma sort_paths_greater_Sorted l :
  Sorted (λ a b, gt b a = false) (sort_paths_greater gt l).
Proof.
  induction l as [|x l IH]; [constructor|].
  unfold sort_paths_greater in *; simpl. by apply insert_greater_Sorted.
Qed.

Lemma unique_Sorted l :
  Sorted (λ a b, gt b a = false) l →
  Sorted (λ a b, gt a b = true) (unique l).
Proof.
  induction 1 as [|x l Hl IH Hhd]; [constructor|].
  destruct l as [|y l]; [by repeat constructor|].
  change (unique (x :: y :: l))
    with (if decide (x = y) then unique (y :: l) else x :: unique (y :: l)).
  case_decide as Hxy; [done|].
  constructor; [done|].
  pose proof (head_unique y l) as Hhead.
  destruct (unique (y :: l)) as [|z k]; [constructor|].
  simpl in Hhead. injection Hhead as ->. constructor.
  apply HdRel_inv in Hhd.
  destruct (gt_total x y) as [?|[?|Hgt]]; [done|done|congruence].
Qed.
End path_order.

Section listing_facts.
Variable fs : filesystem.

(** What the loops of [list_files] collect, before sorting. *)
Lemma elem_of_collected_entries (d p : path) (acc : list path) :
  p ∈ foldl (λ files it,
               if is_directory fs it then files else files ++ [absolute fs it])
            acc (directory_iterator fs d)
  ↔ p ∈ acc ∨
    ∃ it, it ∈ directory_iterator fs d ∧ is_directory fs it = false ∧
          p = absolute fs it.
Proof.
  revert acc. induction (directory_iterator fs d) as [|it its IH]; intros acc; simpl.
  - split; [by left|]. intros [?|(it & Hit & _)]; [done|by apply elem_of_nil in Hit].
  - rewrite IH. destruct (is_directory fs it) eqn:Hdir.
    + split.
      * intros [?|(it' & ? & ? & ?)]; [by left|]. right. exists it'.
        split_and!; [by right|done|done].
      * intros [?|(it' & [->|?]%elem_of_cons & ? & ?)]; [by left|congruence|].
        right. by exists it'.
    + rewrite elem_of_app, list_elem_of_singleton. split.
      * intros [[?| ->]|(it' & ? & ? & ?)]; [by left| |].
        -- right. exists it. split_and!; [by left|done|done].
        -- right. exists it'. split_and!; [by right|done|done].
      * intros [?|(it' & [->|?]%elem_of_cons & ? & ?)];
          [by left; left|by left; right|]. right. by exists it'.
Qed.

(** X12. A path is in the result of [list_files] exactly if it comes from one
    of the given names: a name that is a directory gives the directory
    itself, as written, and the absolute path of each of its entries that is
    not a directory; any other name gives its absolute path. *)
Theorem list_files_members (initializer : list path) (p : path) :
  p ∈ list_files fs initializer ↔
  ∃ q, q ∈ initializer ∧
       if is_directory fs q
       then p = q ∨ ∃ it, it ∈ directory_iterator fs q ∧ is_directory fs it = false ∧
                          p = absolute fs it
       else p = absolute fs q.
Proof.
  unfold list_files.
  rewrite elem_of_unique, (sort_paths_greater_Permutation (path_greater fs)).
  assert (∀ acc,
    p ∈ foldl (λ files q,
                 if is_directory fs q then
                   foldl (λ files it,
                            if is_directory fs it then files
                            else files ++ [absolute fs it])
                         (files ++ [q]) (directory_iterator fs q)
                 else files ++ [absolute fs q])
              acc initializer
    ↔ p ∈ acc ∨
      ∃ q, q ∈ initializer ∧
           if is_directory fs q
           then p = q ∨ ∃ it, it ∈ directory_iterator fs q ∧
                              is_directory fs it = false ∧ p = absolute fs it
           else p = absolute fs q) as Hgen.
  { induction initializer as [|q qs IH]; intros acc; simpl.
    - split; [by left|]. intros [?|(q & Hq & _)]; [done|by apply elem_of_nil in Hq].
    - rewrite IH. destruct (is_directory fs q) eqn:Hdir.
      + rewrite elem_of_collected_entries, elem_of_app, list_elem_of_singleton. split.
        * intros [[[?| ->]|Hit]|(q' & ? & ?)]; [by left| | |].
          -- right. exists q. rewrite Hdir. split; [by left|by left].
          -- right. exists q. rewrite Hdir. split; [by left|by right].
          -- right. exists q'. split; [by right|done].
        * intros [?|(q' & [->|?]%elem_of_cons & Hq')]; [by left; left; left| |].
          -- rewrite Hdir in Hq'. destruct Hq' as [->|Hit];
               [by left; left; right|by left; right].
          -- right. by exists q'.
      + rewrite elem_of_app, list_elem_of_singleton. split.
        * intros [[?| ->]|(q' & ? & ?)]; [by left| |].
          -- right. exists q. rewrite Hdir. split; [by left|done].
          -- right. exists q'. split; [by right|done].
        * intros [?|(q' & [->|?]%elem_of_cons & Hq')]; [by left; left| |].
          -- rewrite Hdir in Hq'. by left; right.
          -- right. by exists q'. }
  rewrite Hgen. split; [|by right].
  intros [Hnil|?]; [by apply elem_of_nil in Hnil|done].
Qed.

(** X13. When the order of paths is a strict total order, the result of
    [list_files] is strictly decreasing in that order; in particular no path
    is listed twice. *)
Theorem list_files_strictly_decreasing (initializer : list path) :
  (∀ a b, path_greater fs a b = true → path_greater fs b a = false) →
  (∀ a b c, path_greater fs a b = true → path_greater fs b c = true →
            path_greater fs a c = true) →
  (∀ a b, a = b ∨ path_greater fs a b = true ∨ path_greater fs b a = true) →
  StronglySorted (λ a b, path_greater fs a b = true) (list_files fs initializer) ∧
  NoDup (list_files fs initializer).
Proof.
  intros Hasym Htrans Htotal.
  assert (StronglySorted (λ a b, path_greater fs a b = true)
            (list_files fs initializer)) as Hsorted.
  { apply Sorted_StronglySorted.
    - intros a b c. apply Htrans.
    - unfold list_files. apply unique_Sorted; [done|].
      by apply sort_paths_greater_Sorted. }
  split; [done|].
  induction Hsorted as [|x l Hl IH Hx]; [constructor|].
  constructor; [|done].
  intros Hin. rewrite Forall_forall in Hx. specialize (Hx x Hin).
  pose proof (Hasym x x Hx). congruence.
Qed.
End listing_facts.

(** The order of strings, which [pics_fs] compares paths with, is a strict
    total order. *)
Lemma ltb_lts (a b : string) : String.ltb a b = true ↔ OrderedTypeEx.String_as_OT.lt a b.
Proof.
  rewrite <- OrderedTypeEx.String_as_OT.cmp_lt.
  unfold String.ltb, OrderedTypeEx.String_as_OT.cmp.
  by destruct (String.compare a b).
Qed.

Lemma pics_fs_order :
  (∀ a b, path_greater pics_fs a b = true → path_greater pics_fs b a = false) ∧
  (∀ a b c, path_greater pics_fs a b = true → path_greater pics_fs b c = true →
            path_greater pics_fs a c = true) ∧
  (∀ a b, a = b ∨ path_greater pics_fs a b = true ∨ path_greater pics_fs b a = true).
Proof.
  simpl. split_and!.
  - intros a b. unfold String.ltb. rewrite (String.compare_antisym a b).
    by destruct (String.compare b a).
  - intros a b c Hab Hbc. apply ltb_lts. apply ltb_lts in Hab, Hbc.
    by eapply OrderedTypeEx.String_as_OT.lt_trans.
  - intros a b. unfold String.ltb. rewrite (String.compare_antisym a b).
    destruct (String.compare b a) eqn:Hc; simpl; [|by right; left|by right; right].
    left. symmetry. by apply String.compare_eq_iff.
Qed.

Lemma list_files_members_witness :
  "/pics/a.png" ∈ list_files pics_fs ["/pics"].
Proof.
  apply (list_files_members pics_fs ["/pics"] "/pics/a.png").
  exists "/pics". split; [by left|]. right.
  exists "/pics/a.png". split_and!; [by left|reflexivity|reflexivity].
Defined.

Lemma list_files_strictly_decreasing_witness :
  StronglySorted (λ a b, path_greater pics_fs a b = true)
    (list_files pics_fs ["/pics/b.png"; "/pics"; "/pics/b.png"]) ∧
  NoDup (list_files pics_fs ["/pics/b.png"; "/pics"; "/pics/b.png"]).
Proof.
  destruct pics_fs_order as (Hasym & Htrans & Htotal).
  exact (list_files_strictly_decreasing pics_fs ["/pics/b.png"; "/pics"; "/pics/b.png"]
           Hasym Htrans Htotal).
Defined.

(** *** More on the image source *)

Section source_more.
Context {cache : Type} `{!ImageCache cache}.
Variable sort_greater : list prio_shared_image → list prio_shared_image.
Variable operator_bool : image_state → bool.
Variable image_path : image_ptr → path.
Variable fs : filesystem.
Variable watch_fs : bool.
Hypothesis sort_conforms : conforming_sort sort_greater.

Implicit Types (src : image_source cache) (p : path) (act : action.t).

Lemma normalize_names_head (fnames : list path) :
  head (normalize_names fs fnames) = Some (default "." (head fnames)) ∧
  fnames `prefix_of` normalize_names fs fnames.
Proof.
  destruct fnames as [|f [|g fnames]]; simpl.
  - split; [done|]. by exists ["."].
  - destruct (is_directory fs (absolute fs f)); simpl; (split; [done|]).
    + done.
    + by exists [parent_path fs (absolute fs f)].
  - done.
Qed.

(** X14. The constructor never skips [cache_.add]: [normalize_names] keeps
    the given names in front and never returns an empty list, so the cache is
    first given the absolute path of the first name ("." when no name is
    given) and then set to the listed files. *)
Theorem construct_adds_first_name (fnames : list path) src :
  let names := normalize_names fs fnames in
  let first := absolute fs (default "." (head fnames)) in
  let src' := construct sort_greater operator_bool fs watch_fs fnames src in
  names ≠ [] ∧
  fnames `prefix_of` names ∧
  startup_files_ src' = names ∧
  cache_ src' = (cache_set (list_files fs names) (cache_add first (cache_ src)).1).1 ∧
  backup_ src' = backup_ src ∧
  change_ src' = change_ src.
Proof.
  intros names first src'. unfold names, first, src'. clear names first src'.
  destruct (normalize_names_head fnames) as [Hhead Hprefix].
  split; [by intros Hnil; rewrite Hnil in Hhead|]. split; [done|].
  unfold construct; simpl.
  destruct (normalize_names fs fnames) as [|f names'] eqn:Hnames; [done|].
  simpl in Hhead. injection Hhead as Hf. rewrite <- Hf.
  unfold populate_cache.
  set (src0 := ImageSource (cache_ src) (f :: names') (backup_ src) (change_ src)
                 (filesystem_watcher_ src) (loader_ src)).
  destruct (on_cache_fields sort_greater operator_bool (cache_add (absolute fs f)) src0)
    as (Hc1 & _ & Hs1 & Hb1 & Hch1 & _).
  set (src1 := on_cache sort_greater operator_bool (cache_add (absolute fs f)) src0) in *.
  destruct (on_cache_fields sort_greater operator_bool
              (cache_set (list_files fs (startup_files_ src1))) src1)
    as (Hc2 & _ & Hs2 & Hb2 & Hch2 & _).
  rewrite Hs1 in Hc2, Hs2, Hb2, Hch2 |- *. simpl in *.
  destruct watch_fs; simpl; rewrite ?Hs2, ?Hc2, ?Hb2, ?Hch2, ?Hc1, ?Hb1, ?Hch1; done.
Qed.

Lemma run_callbacks_loader_kept (cbs : list cache_callback) (l : loader) :
  scheduler_inv (sched l) →
  scheduler_inv (sched (run_callbacks sort_greater operator_bool cbs l)) ∧
  pc (run_callbacks sort_greater operator_bool cbs l) = pc l ∧
  worker_calls (run_callbacks sort_greater operator_bool cbs l) = worker_calls l ∧
  stop_requested (run_callbacks sort_greater operator_bool cbs l) = stop_requested l.
Proof.
  revert l. induction cbs as [|cb cbs IH]; intros l Hinv; [done|].
  change (run_callbacks sort_greater operator_bool (cb :: cbs) l)
    with (run_callbacks sort_greater operator_bool cbs
            (run_callback sort_greater operator_bool cb l)).
  assert (scheduler_inv (sched (run_callback sort_greater operator_bool cb l)) ∧
          pc (run_callback sort_greater operator_bool cb l) = pc l ∧
          worker_calls (run_callback sort_greater operator_bool cb l) = worker_calls l ∧
          stop_requested (run_callback sort_greater operator_bool cb l)
          = stop_requested l) as (Hinv' & <- & <- & <-).
  { destruct cb as [img prio|img cur]; (split; [|done]).
    - by apply (step_scheduler_inv sort_greater operator_bool sort_conforms).
    - unfold run_callback, unload_image.
      by do 2 apply (step_scheduler_inv sort_greater operator_bool sort_conforms). }
  by apply IH.
Qed.

Lemma on_cache_loader_kept op src :
  scheduler_inv (sched (loader_ src)) →
  loader_kept src (on_cache sort_greater operator_bool op src).
Proof.
  intros Hinv. unfold loader_kept.
  destruct (on_cache_fields sort_greater operator_bool op src) as (_ & -> & _).
  by apply run_callbacks_loader_kept.
Qed.

Lemma populate_cache_loader_kept src :
  scheduler_inv (sched (loader_ src)) →
  loader_kept src (populate_cache sort_greater operator_bool fs watch_fs src).
Proof.
  intros Hinv. unfold populate_cache.
  pose proof (on_cache_loader_kept
                (cache_set (list_files fs (startup_files_ src))) src Hinv) as Hkept.
  by destruct watch_fs.
Qed.

(** X15. Whatever callbacks the cache issues, the operations of the image
    source leave the scheduler well formed, and they neither move the worker
    nor request a stop. *)
Theorem source_operations_keep_loader src p act (fnames : list path) :
  scheduler_inv (sched (loader_ src)) →
  loader_kept src (file_event sort_greater operator_bool image_path p act src) ∧
  loader_kept src (next_image sort_greater operator_bool src) ∧
  loader_kept src (previous_image sort_greater operator_bool src) ∧
  loader_kept src (reload_current sort_greater operator_bool src) ∧
  loader_kept src (reload_file_list sort_greater operator_bool fs watch_fs src) ∧
  loader_kept src (construct sort_greater operator_bool fs watch_fs fnames src).
Proof.
  intros Hinv.
  assert (∀ kind op, loader_kept src
            (on_cache sort_greater operator_bool op (record_change kind src))) as Hrec.
  { intros kind op.
    by apply (on_cache_loader_kept op (record_change kind src)). }
  split_and!.
  - unfold file_event. case_decide.
    + destruct (is_current image_path p (cache_current (cache_ src)));
        [apply Hrec|by apply on_cache_loader_kept].
    + destruct (is_current image_path p (cache_current (cache_ src)));
        [apply Hrec|by apply on_cache_loader_kept].
  - apply Hrec.
  - apply Hrec.
  - apply Hrec.
  - unfold reload_file_list.
    destruct (Hrec image_change.reload cache_invalidate_all) as (H1 & H2 & H3 & H4).
    destruct (populate_cache_loader_kept _ H1) as (? & ? & ? & ?).
    unfold loader_kept. split_and!; [done|congruence..].
  - unfold construct; simpl.
    set (src0 := ImageSource (cache_ src) (normalize_names fs fnames) (backup_ src)
                   (change_ src) (filesystem_watcher_ src) (loader_ src)).
    assert (loader_kept src
              match normalize_names fs fnames with
              | [] => src0
              | f :: _ => on_cache sort_greater operator_bool
                            (cache_add (absolute fs f)) src0
              end) as (H1 & H2 & H3 & H4).
    { destruct (normalize_names fs fnames); [by unfold loader_kept|].
      by apply (on_cache_loader_kept _ src0). }
    destruct (populate_cache_loader_kept _ H1) as (? & ? & ? & ?).
    unfold loader_kept. split_and!; [done|congruence..].
Qed.
End source_more.

(** *** The file listing *)

Section file_listing_facts.
Variable lfs : listing_fs.
Variable config : listing_config.

Implicit Types (fl : file_listing) (lst : list path) (p : path) (mode : listing_mode.t).

Local Abbreviation fs := (base_fs lfs).

Lemma filter_cons_app {A} (P : A → Prop) `{!∀ x, Decision (P x)} (x : A) (l : list A) :
  filter P (x :: l) = filter P [x] ++ filter P l.
Proof. apply (filter_app P [x] l). Qed.

Lemma with_items_nil fl : with_items [] fl = fl.
Proof. destruct fl. unfold with_items; simpl. by rewrite app_nil_r. Qed.

Lemma with_items_app (items1 items2 : list fs_info) fl :
  with_items items2 (with_items items1 fl) = with_items (items1 ++ items2) fl.
Proof. unfold with_items; simpl. by rewrite app_assoc. Qed.

Lemma populate_item_items lst p mode fl :
  populate_item lfs lst p mode fl
  = (lst ++ (info_path <$> filter (λ it, satisfied lfs it = true)
                             [FsInfo (absolute fs p) mode]),
     with_items [FsInfo (absolute fs p) mode] fl).
Proof.
  unfold populate_item. rewrite filter_cons, filter_nil.
  destruct (satisfied lfs (FsInfo (absolute fs p) mode)) eqn:Hsat.
  - by rewrite decide_True.
  - rewrite decide_False by done. simpl. by rewrite app_nil_r.
Qed.

(** The loops over the entries of a directory. *)
Lemma populate_entries (mode_of : path → listing_mode.t) (entries : list path) lst fl :
  foldl (λ '(lst, fl) p,
           if is_directory fs p then (lst, fl)
           else populate_item lfs lst p (mode_of p) fl)
        (lst, fl) entries
  = (lst ++ (info_path <$> filter (λ it, satisfied lfs it = true)
                             (entry_items lfs mode_of entries)),
     with_items (entry_items lfs mode_of entries) fl).
Proof.
  revert lst fl. induction entries as [|p entries IH]; intros lst fl.
  - unfold entry_items; simpl. by rewrite app_nil_r, with_items_nil.
  - simpl. unfold entry_items. rewrite filter_cons.
    destruct (is_directory fs p) eqn:Hdir.
    + rewrite decide_False by done. apply IH.
    + rewrite decide_True by done. rewrite populate_item_items, IH.
      rewrite fmap_cons, with_items_app.
      change ((λ p0, FsInfo (absolute fs p0) (mode_of p0))
                <$> filter (λ p0, is_directory fs p0 = false) entries)
        with (entry_items lfs mode_of entries).
      rewrite (filter_cons_app _ _ (entry_items lfs mode_of entries)), fmap_app.
      by rewrite app_assoc.
Qed.

Lemma populate_directory_items lst (dir : path) mode fl :
  populate_directory lfs lst dir mode fl
  = (lst ++ (info_path <$> filter (λ it, satisfied lfs it = true)
                             (entry_items lfs (λ _, mode) (directory_iterator fs dir))),
     with_items (entry_items lfs (λ _, mode) (directory_iterator fs dir)) fl).
Proof. unfold populate_directory. apply (populate_entries (λ _, mode)). Qed.

(** What [populate] returns and leaves behind. *)
Lemma populate_items fl :
  populate lfs config fl
  = (info_path <$> filter (λ it, satisfied lfs it = true) (populated_items lfs config fl),
     FileListing (initial_files_ fl) (callback_ fl)
                 (file_list_ fl ++ populated_items lfs config fl)
                 (if decide (determine_startup_mode lfs fl = startup_mode.single_file)
                  then Some (front (initial_files_ fl))
                  else demotion_candidate_ fl)
                 (invoked fl)).
Proof.
  unfold populate, populated_items.
  destruct (determine_startup_mode lfs fl) eqn:Hmode; simpl.
  - by rewrite app_nil_r; destruct fl.
  - by rewrite populate_directory_items.
  - by rewrite populate_entries.
  - assert (∀ files lst fl',
      foldl (λ '(lst, fl) p,
               if is_directory fs p then
                 populate_directory lfs lst p (fl_multi_dir config) fl
               else populate_item lfs lst p (fl_multi_file config) fl)
            (lst, fl') files
      = (lst ++ (info_path <$> filter (λ it, satisfied lfs it = true)
           (mjoin ((λ p, if is_directory fs p
                         then entry_items lfs (λ _, fl_multi_dir config)
                                (directory_iterator fs p)
                         else [FsInfo (absolute fs p) (fl_multi_file config)])
                     <$> files))),
         with_items
           (mjoin ((λ p, if is_directory fs p
                         then entry_items lfs (λ _, fl_multi_dir config)
                                (directory_iterator fs p)
                         else [FsInfo (absolute fs p) (fl_multi_file config)])
                     <$> files)) fl')) as Hfold.
    { induction files as [|p files IH]; intros lst fl'.
      - simpl. by rewrite app_nil_r, with_items_nil.
      - simpl. destruct (is_directory fs p).
        + rewrite populate_directory_items, IH, with_items_app.
          by rewrite filter_app, fmap_app, app_assoc.
        + rewrite populate_item_items, IH, with_items_app.
          by rewrite filter_app, fmap_app, app_assoc. }
    by rewrite Hfold.
Qed.
Lemma elem_of_entry_items (mode_of : path → listing_mode.t) (entries : list path)
    (item : fs_info) :
  item ∈ entry_items lfs mode_of entries ↔
  ∃ p, p ∈ entries ∧ is_directory fs p = false ∧
       item = FsInfo (absolute fs p) (mode_of p).
Proof.
  unfold entry_items. rewrite list_elem_of_fmap. split.
  - intros (p & -> & [Hdir Hin]%list_elem_of_filter). by exists p.
  - intros (p & Hin & Hdir & ->). exists p. split; [done|].
    by apply list_elem_of_filter.
Qed.

Lemma elem_of_populated_items fl (item : fs_info) :
  item ∈ populated_items lfs config fl →
  ∃ p, is_directory fs p = false ∧ info_path item = absolute fs p.
Proof.
  unfold populated_items. destruct (determine_startup_mode lfs fl).
  - by intros ?%elem_of_nil.
  - intros (p & _ & ? & ->)%elem_of_entry_items. by exists p.
  - intros (p & _ & ? & ->)%elem_of_entry_items. by exists p.
  - intros (items & Hitem & (d & -> & Hd)%list_elem_of_fmap)%list_elem_of_join.
    destruct (is_directory fs d) eqn:Hdir.
    + apply elem_of_entry_items in Hitem as (p & _ & ? & ->). by exists p.
    + apply list_elem_of_singleton in Hitem as ->. by exists d.
Qed.

(** X16. [populate] appends items to [file_list_] and replaces none; it
    returns exactly the paths of the appended items that are satisfied, in
    the same order; every appended item is the absolute path of a
    non-directory, and neither the initial files nor the callback are
    touched. *)
Theorem populate_returns_satisfied_items fl :
  let r := populate lfs config fl in
  ∃ new : list fs_info,
    file_list_ r.2 = file_list_ fl ++ new ∧
    r.1 = info_path <$> filter (λ it, satisfied lfs it = true) new ∧
    Forall (λ it, ∃ p, is_directory fs p = false ∧ info_path it = absolute fs p) new ∧
    initial_files_ r.2 = initial_files_ fl ∧
    callback_ r.2 = callback_ fl ∧
    invoked r.2 = invoked fl.
Proof.
  simpl. rewrite populate_items. exists (populated_items lfs config fl); simpl.
  split_and!; [done|done| |done|done|done].
  apply Forall_forall. intros item. apply elem_of_populated_items.
Qed.

Lemma find_file_in_Some (entries : list path) mode p :
  find_file_in lfs entries mode = Some p →
  p ∈ entries ∧ is_directory fs p = false ∧ satisfies lfs p mode = true.
Proof.
  induction entries as [|q entries IH]; simpl; [done|].
  destruct (is_directory fs q) eqn:Hdir; simpl.
  - intros (? & ? & ?)%IH. split_and!; [by right|done|done].
  - destruct (satisfies lfs q mode) eqn:Hsat.
    + intros [= <-]. split_and!; [by left|done|done].
    + intros (? & ? & ?)%IH. split_and!; [by right|done|done].
Qed.

Lemma initial_file_multi_Some (files : list path) p :
  initial_file_multi lfs config files = Some p →
  (∃ d, d ∈ files ∧ is_directory fs d = true ∧
        find_file lfs d (fl_multi_dir config) = Some p) ∨
  (p ∈ files ∧ is_directory fs p = false ∧
   satisfies lfs p (fl_multi_file config) = true).
Proof.
  induction files as [|q files IH]; simpl; [done|].
  assert (initial_file_multi lfs config files = Some p →
    (∃ d, d ∈ q :: files ∧ is_directory fs d = true ∧
          find_file lfs d (fl_multi_dir config) = Some p) ∨
    (p ∈ q :: files ∧ is_directory fs p = false ∧
     satisfies lfs p (fl_multi_file config) = true)) as Hrest.
  { intros [(d & ? & ? & ?)|(? & ? & ?)]%IH.
    - left. exists d. split_and!; [by right|done|done].
    - right. split_and!; [by right|done|done]. }
  destruct (is_directory fs q) eqn:Hdir.
  - destruct (find_file lfs q (fl_multi_dir config)) as [init_file|] eqn:Hfind; [|done].
    intros [= <-]. left. exists q. split_and!; [by left|done|done].
  - destruct (satisfies lfs q (fl_multi_file config)) eqn:Hsat; [|done].
    intros [= <-]. right. split_and!; [by left|done|done].
Qed.

Lemma single_file_front fl :
  determine_startup_mode lfs fl = startup_mode.single_file →
  initial_files_ fl = [front (initial_files_ fl)] ∧
  is_directory fs (front (initial_files_ fl)) = false.
Proof.
  unfold determine_startup_mode.
  destruct (initial_files_ fl) as [|f [|g files]]; [done| |done].
  unfold front; simpl. by destruct (is_directory fs f) eqn:Hdir.
Qed.

Lemma single_dir_front fl :
  determine_startup_mode lfs fl = startup_mode.single_dir →
  initial_files_ fl = [front (initial_files_ fl)] ∧
  is_directory fs (front (initial_files_ fl)) = true.
Proof.
  unfold determine_startup_mode.
  destruct (initial_files_ fl) as [|f [|g files]]; [done| |done].
  unfold front; simpl. by destruct (is_directory fs f) eqn:Hdir.
Qed.

(** X17. [initial_file] never returns a directory, and what it returns is
    satisfied in the mode of the place it was found: an entry of the single
    directory; the single file itself or, if that one is not satisfied and
    [fl_single_file_parent] is set, an entry of its parent directory; an
    entry of one of several directories or one of several files. Without
    initial files it returns nothing. *)
Theorem initial_file_is_satisfied_file fl p :
  initial_file lfs config fl = Some p →
  is_directory fs p = false ∧
  match determine_startup_mode lfs fl with
  | startup_mode.single_dir =>
      p ∈ directory_iterator fs (front (initial_files_ fl)) ∧
      satisfies lfs p (fl_single_dir config) = true
  | startup_mode.single_file =>
      (p = front (initial_files_ fl) ∧
       satisfies lfs p (fl_single_file config) = true) ∨
      (fl_single_file_parent config = true ∧
       satisfies lfs (front (initial_files_ fl)) (fl_single_file config) = false ∧
       p ∈ directory_iterator fs (parent_path fs (front (initial_files_ fl))) ∧
       satisfies lfs p (fl_single_file_parent_dir config) = true)
  | startup_mode.multi =>
      (∃ d, d ∈ initial_files_ fl ∧ is_directory fs d = true ∧
            p ∈ directory_iterator fs d ∧
            satisfies lfs p (fl_multi_dir config) = true) ∨
      (p ∈ initial_files_ fl ∧ satisfies lfs p (fl_multi_file config) = true)
  | startup_mode.empty => False
  end.
Proof.
  unfold initial_file.
  destruct (determine_startup_mode lfs fl) eqn:Hmode.
  - done.
  - intros (? & ? & ?)%find_file_in_Some. done.
  - destruct (single_file_front fl Hmode) as [_ Hdir].
    destruct (satisfies lfs (front (initial_files_ fl)) (fl_single_file config)) eqn:Hsat.
    + intros [= <-]. split; [done|]. by left.
    + destruct (fl_single_file_parent config) eqn:Hparent; simpl; [|done].
      intros (? & ? & ?)%find_file_in_Some. split; [done|]. by right.
  - intros [(d & ? & ? & (? & ? & ?)%find_file_in_Some)|(? & ? & ?)]%initial_file_multi_Some.
    + split; [done|]. left. by exists d.
    + split; [done|]. by right.
Qed.
(** The item [demote_initial_file] finds is found again after its mode was
    overwritten. *)
Lemma find_after_demote (items : list fs_info) (c : path) i (item : fs_info) mode :
  list_find (λ it, info_path it = c) items = Some (i, item) →
  list_find (λ it, info_path it = c) (<[i := FsInfo (info_path item) mode]> items)
  = Some (i, FsInfo (info_path item) mode).
Proof.
  intros (Hi & Hc & Hfirst)%list_find_Some. apply list_find_Some. split_and!.
  - apply list_lookup_insert_eq. by eapply lookup_lt_Some.
  - done.
  - intros j y Hj Hlt. rewrite list_lookup_insert_ne in Hj by lia. by eapply Hfirst.
Qed.

(** X18. A second [demote_initial_file] changes nothing and calls nothing. *)
Theorem demote_initial_file_twice fl :
  demote_initial_file lfs config (demote_initial_file lfs config fl)
  = demote_initial_file lfs config fl.
Proof.
  unfold demote_initial_file at 2 3.
  destruct (demotion_candidate_ fl) as [c|] eqn:Hc.
  2:{ unfold demote_initial_file. by rewrite Hc. }
  destruct (list_find (λ it, info_path it = c) (file_list_ fl)) as [[i item]|] eqn:Hfind.
  2:{ unfold demote_initial_file. by rewrite Hc, Hfind. }
  set (mode := fl_single_file_parent_dir config).
  set (fl' := FileListing (initial_files_ fl) (callback_ fl)
                (<[i := FsInfo (info_path item) mode]> (file_list_ fl))
                (demotion_candidate_ fl) (invoked fl)).
  pose proof (find_after_demote _ _ _ _ mode Hfind) as Hfind'.
  assert (∀ fl'', demotion_candidate_ fl'' = Some c →
                  file_list_ fl'' = <[i := FsInfo (info_path item) mode]> (file_list_ fl) →
                  demote_initial_file lfs config fl'' = fl'') as Hfixed.
  { intros fl'' Hc'' Hlist''. unfold demote_initial_file.
    rewrite Hc'', Hlist'', Hfind'; simpl. fold mode.
    rewrite list_insert_insert_eq. rewrite andb_negb_l. rewrite <- Hlist'', <- Hc''.
    by destruct fl''. }
  cbv zeta.
  destruct (negb (satisfied lfs (FsInfo (info_path item) mode)) && satisfied lfs item).
  - apply Hfixed; unfold invoke_save; simpl; by destruct (callback_ fl).
  - by apply Hfixed.
Qed.

(** X19. [demote_initial_file] keeps the paths of [file_list_]. It calls the
    callback at most once, with [removed] for the demotion candidate, and
    only if a callback is set and the candidate is not satisfied in the mode
    [fl_single_file_parent_dir]; in mode [always] it calls nothing. *)
Theorem demote_initial_file_callback fl :
  let fl' := demote_initial_file lfs config fl in
  info_path <$> file_list_ fl' = info_path <$> file_list_ fl ∧
  demotion_candidate_ fl' = demotion_candidate_ fl ∧
  (invoked fl' = invoked fl ∨
   ∃ c, demotion_candidate_ fl = Some c ∧ callback_ fl = true ∧
        invoked fl' = invoked fl ++ [(c, action.removed)] ∧
        satisfies lfs c (fl_single_file_parent_dir config) = false) ∧
  (fl_single_file_parent_dir config = listing_mode.always → invoked fl' = invoked fl).
Proof.
  simpl. unfold demote_initial_file.
  destruct (demotion_candidate_ fl) as [c|] eqn:Hc; [|by split_and!; [..|left|]].
  destruct (list_find (λ it, info_path it = c) (file_list_ fl)) as [[i item]|] eqn:Hfind;
    [|by split_and!; [..|left|]].
  apply list_find_Some in Hfind as (Hi & Hpath & _).
  assert (info_path <$> <[i := FsInfo (info_path item) (fl_single_file_parent_dir config)]>
                          (file_list_ fl)
          = info_path <$> file_list_ fl) as Hpaths.
  { rewrite list_fmap_insert; simpl. apply list_insert_id.
    by rewrite list_lookup_fmap, Hi. }
  cbv zeta.
  change (satisfied lfs (FsInfo (info_path item) (fl_single_file_parent_dir config)))
    with (satisfies lfs (info_path item) (fl_single_file_parent_dir config)).
  destruct (satisfies lfs (info_path item) (fl_single_file_parent_dir config)) eqn:Hsat;
    simpl.
  - split_and!; [done|done|by left|done].
  - destruct (satisfied lfs item); simpl; [|split_and!; [done|done|by left|done]].
    unfold invoke_save; simpl.
    destruct (callback_ fl) eqn:Hcb; simpl.
    + split_and!; [done|done| |].
      * right. exists c. by rewrite Hpath in *.
      * intros Hmode. by rewrite Hmode in Hsat.
    + split_and!; [done|done|by left|done].
Qed.

Lemma elem_of_listed (items : list fs_info) (item : fs_info) :
  item ∈ items → satisfied lfs item = true →
  info_path item ∈ info_path <$> filter (λ it, satisfied lfs it = true) items.
Proof.
  intros Hin Hsat. apply list_elem_of_fmap. exists item. split; [done|].
  by apply list_elem_of_filter.
Qed.

(** X20. Started on a directory or on several names, with absolute initial
    files whose directory entries are absolute too, [populate] lists the file
    that [initial_file] returns. *)
Theorem initial_file_is_listed fl p :
  determine_startup_mode lfs fl ≠ startup_mode.single_file →
  (∀ f, f ∈ initial_files_ fl → absolute fs f = f) →
  (∀ d it, d ∈ initial_files_ fl → it ∈ directory_iterator fs d → absolute fs it = it) →
  initial_file lfs config fl = Some p →
  p ∈ (populate lfs config fl).1.
Proof.
  intros Hmode Hfiles Hentries Hinit. rewrite populate_items; simpl.
  unfold initial_file in Hinit. unfold populated_items.
  destruct (determine_startup_mode lfs fl) eqn:Hm; [done| |done|].
  - destruct (single_dir_front fl Hm) as [Hfront _].
    apply find_file_in_Some in Hinit as (Hin & Hdir & Hsat).
    assert (absolute fs p = p) as Habs.
    { apply (Hentries (front (initial_files_ fl))); [|done]. rewrite Hfront at 2. by left. }
    apply (elem_of_listed _ (FsInfo p (fl_single_dir config))); [|done].
    apply elem_of_entry_items. exists p. by rewrite Habs.
  - apply initial_file_multi_Some in Hinit
      as [(d & Hd & Hdir & (Hin & Hpdir & Hsat)%find_file_in_Some)|(Hin & Hdir & Hsat)].
    + assert (absolute fs p = p) as Habs by (by apply (Hentries d)).
      apply (elem_of_listed _ (FsInfo p (fl_multi_dir config))); [|done].
      apply list_elem_of_join. eexists. split; [|apply list_elem_of_fmap; by exists d].
      simpl. rewrite Hdir. apply elem_of_entry_items. exists p. by rewrite Habs.
    + assert (absolute fs p = p) as Habs by (by apply Hfiles).
      apply (elem_of_listed _ (FsInfo p (fl_multi_file config))); [|done].
      apply list_elem_of_join. eexists. split; [|apply list_elem_of_fmap; by exists p].
      simpl. rewrite Hdir, Habs. by left.
Qed.

(** X21. Started on a single file that is satisfied in the mode
    [fl_single_file] but is not among the entries of its parent directory
    (a file that does not exist, in mode [always]), [initial_file] returns
    the file and [populate] does not list it. *)
Theorem single_file_not_in_parent fl :
  determine_startup_mode lfs fl = startup_mode.single_file →
  satisfies lfs (front (initial_files_ fl)) (fl_single_file config) = true →
  (∀ it, it ∈ directory_iterator fs (parent_path fs (front (initial_files_ fl))) →
         is_directory fs it = false → absolute fs it ≠ front (initial_files_ fl)) →
  initial_file lfs config fl = Some (front (initial_files_ fl)) ∧
  front (initial_files_ fl) ∉ (populate lfs config fl).1.
Proof.
  intros Hmode Hsat Hmissing. split.
  - unfold initial_file. by rewrite Hmode, Hsat.
  - rewrite populate_items; simpl. unfold populated_items. rewrite Hmode.
    intros (item & Hpath & [_ Hin]%list_elem_of_filter)%list_elem_of_fmap.
    apply elem_of_entry_items in Hin as (it & Hit & Hdir & ->). simpl in Hpath.
    by apply (Hmissing it).
Qed.
End file_listing_facts.

(** *** The image source and the file listing at work *)

Lemma construct_adds_first_name_witness :
  cache_ (construct merge_sort_greater is_loaded pics_fs true ["/pics/b.png"]
            (probe_source None))
  = ProbeCache None [op_add "/pics/b.png"; op_set ["/pics/b.png"; "/pics/a.png"; "/pics"]].
Proof.
  exact (proj1 (proj2 (proj2 (proj2
           (construct_adds_first_name merge_sort_greater is_loaded pics_fs true
              ["/pics/b.png"] (probe_source None)))))).
Defined.

Lemma source_operations_keep_loader_witness :
  loader_kept (probe_source (Some 1))
    (file_event merge_sort_greater is_loaded pics_path "/pics/a.png" action.modified
       (probe_source (Some 1))).
Proof.
  exact (proj1 (source_operations_keep_loader merge_sort_greater is_loaded pics_path
                  pics_fs true merge_sort_greater_conforming
                  (probe_source (Some 1)) "/pics/a.png" action.modified []
                  idle_scheduler_inv)).
Defined.

Lemma populate_returns_satisfied_items_witness :
  let r := populate pics_lfs pics_config (new_file_listing pics_lfs true ["/pics"]) in
  r.1 = ["/pics/a.png"] ∧
  ∃ new : list fs_info,
    file_list_ r.2 = [] ++ new ∧
    r.1 = info_path <$> filter (λ it, satisfied pics_lfs it = true) new.
Proof.
  split; [reflexivity|].
  destruct (populate_returns_satisfied_items pics_lfs pics_config
              (new_file_listing pics_lfs true ["/pics"])) as (new & H1 & H2 & _).
  exists new. exact (conj H1 H2).
Defined.

Lemma initial_file_is_satisfied_file_witness :
  initial_file pics_lfs pics_config (new_file_listing pics_lfs true ["/pics"])
  = Some "/pics/a.png" ∧
  is_directory pics_fs "/pics/a.png" = false ∧
  "/pics/a.png" ∈ directory_iterator pics_fs "/pics" ∧
  satisfies pics_lfs "/pics/a.png" listing_mode.supported = true.
Proof.
  split; [reflexivity|].
  exact (initial_file_is_satisfied_file pics_lfs pics_config
           (new_file_listing pics_lfs true ["/pics"]) "/pics/a.png" eq_refl).
Defined.

(** Started on "/pics/b.png", for which no codec is found: the file is
    listed at first; demoted to the mode of its directory it is no longer
    satisfied, and the callback is told that it was removed, once. *)
Lemma demote_initial_file_twice_witness :
  let fl := (populate pics_lfs pics_config
               (new_file_listing pics_lfs true ["/pics/b.png"])).2 in
  let fl' := demote_initial_file pics_lfs pics_config fl in
  invoked fl = [] ∧
  invoked fl' = [("/pics/b.png", action.removed)] ∧
  demote_initial_file pics_lfs pics_config fl' = fl'.
Proof.
  split; [reflexivity|]. split; [reflexivity|].
  exact (demote_initial_file_twice pics_lfs pics_config
           (populate pics_lfs pics_config
              (new_file_listing pics_lfs true ["/pics/b.png"])).2).
Defined.

Lemma demote_initial_file_callback_witness :
  let fl := (populate pics_lfs pics_config
               (new_file_listing pics_lfs true ["/pics/b.png"])).2 in
  let fl' := demote_initial_file pics_lfs pics_config fl in
  info_path <$> file_list_ fl' = ["/pics/a.png"; "/pics/b.png"] ∧
  info_path <$> file_list_ fl' = info_path <$> file_list_ fl.
Proof.
  split; [reflexivity|].
  exact (proj1 (demote_initial_file_callback pics_lfs pics_config
                  (populate pics_lfs pics_config
                     (new_file_listing pics_lfs true ["/pics/b.png"])).2)).
Defined.

Lemma initial_file_is_listed_witness :
  "/pics/a.png"
  ∈ (populate pics_lfs pics_config (new_file_listing pics_lfs true ["/pics"])).1.
Proof.
  apply (initial_file_is_listed pics_lfs pics_config
           (new_file_listing pics_lfs true ["/pics"]) "/pics/a.png").
  - discriminate.
  - reflexivity.
  - reflexivity.
  - reflexivity.
Defined.

(** "/pics/c.png" does not exist: it is the initial file and is not listed. *)
Lemma single_file_not_in_parent_witness :
  let fl := new_file_listing pics_lfs true ["/pics/c.png"] in
  initial_file pics_lfs pics_config fl = Some "/pics/c.png" ∧
  "/pics/c.png" ∉ (populate pics_lfs pics_config fl).1.
Proof.
  apply (single_file_not_in_parent pics_lfs pics_config
           (new_file_listing pics_lfs true ["/pics/c.png"])).
  - reflexivity.
  - reflexivity.
  - intros it Hit _. simpl in Hit.
    apply elem_of_cons in Hit as [->|Hit]; [discriminate|].
    apply list_elem_of_singleton in Hit as ->. discriminate.
Defined.

(** *** A load that nobody cancels *)

Section uncancelled_load.
Variable sort_greater : list prio_shared_image → list prio_shared_image.
Variable operator_bool : image_state → bool.

Implicit Types (l : loader) (img : image_ptr) (e : event) (es : list event).

Lemma step_leaves_alone img e l :
  leaves_alone img e = true →
  img ∉ unscheduled_images_ (sched l) →
  pc (step sort_greater operator_bool e l) = pc l ∧
  worker_calls (step sort_greater operator_bool e l) = worker_calls l ∧
  images (step sort_greater operator_bool e l) img = images l img ∧
  img ∉ unscheduled_images_ (sched (step sort_greater operator_bool e l)).
Proof.
  intros He Hu. destruct e as [j p|j|j| |ok]; simpl in *; try done.
  - split_and!; [done|done|done|]. intros Hin. by apply schedule_image_keeps_others in Hin.
  - apply bool_decide_eq_true in He. split_and!; [done|done|done|].
    unfold unschedule_image.
    destruct (find_scheduled j (scheduled_images_ (sched l))) as [[i x]|]; [done|].
    destruct (find_unscheduled j (unscheduled_images_ (sched l))); simpl; [done|].
    intros [?| ->%list_elem_of_singleton]%elem_of_app; done.
  - apply bool_decide_eq_true in He. split_and!; [done|done| |done].
    unfold set_image. by rewrite decide_False.
Qed.

Lemma run_leaves_alone img es l :
  Forall (λ e, leaves_alone img e = true) es →
  img ∉ unscheduled_images_ (sched l) →
  pc (run sort_greater operator_bool es l) = pc l ∧
  worker_calls (run sort_greater operator_bool es l) = worker_calls l ∧
  images (run sort_greater operator_bool es l) img = images l img ∧
  img ∉ unscheduled_images_ (sched (run sort_greater operator_bool es l)).
Proof.
  intros Hes. revert l. induction Hes as [|e es He _ IH]; intros l Hu; [done|].
  simpl. destruct (step_leaves_alone img e l He Hu) as (<- & <- & <- & Hu').
  by apply IH.
Qed.

(** X22. A load that nobody cancels is kept. When the worker, on a
    well-formed scheduler, dequeues an image for which [operator bool] does
    not hold, and the other threads neither unschedule nor clear that image
    before the check, the worker calls [load()] and no [clear()], and the
    image is left as [load()] left it. *)
Theorem uncancelled_load_is_kept l img s' es1 es2 ok :
  scheduler_inv (sched l) →
  pc l = at_loop_head →
  stop_requested l = false →
  next_scheduled_image (sched l) = (Some img, s') →
  operator_bool (images l img) = false →
  Forall (λ e, leaves_alone img e = true) es1 →
  Forall (λ e, leaves_alone img e = true) es2 →
  let after :=
    work_loop_step operator_bool ok
      (run sort_greater operator_bool es2
         (work_loop_step operator_bool ok
            (run sort_greater operator_bool es1
               (work_loop_step operator_bool ok l)))) in
  images after img = (if ok then loaded else failed) ∧
  worker_calls after = worker_calls l ++ [called_load img] ∧
  pc after = at_loop_head.
Proof.
  intros Hinv Hpc Hstop Hnext Hbool Hes1 Hes2. cbv zeta.
  set (l1 := work_loop_step operator_bool ok l).
  assert (pc l1 = in_load img ∧ worker_calls l1 = worker_calls l ++ [called_load img] ∧
          img ∉ unscheduled_images_ (sched l1)) as (Hpc1 & Hc1 & Hu1).
  { unfold l1, work_loop_step. rewrite Hpc, Hstop, Hnext, Hbool; simpl.
    split_and!; [done|done|].
    pose proof (next_scheduled_image_queued _ _ _ Hnext) as [Hq _].
    pose proof (inv_disjoint _ Hinv img Hq) as Hnot.
    unfold next_scheduled_image in Hnext.
    destruct (last (scheduled_images_ (sched l))); [|done].
    by injection Hnext as _ <-. }
  destruct (run_leaves_alone img es1 l1 Hes1 Hu1) as (Hpc2 & Hc2 & _ & Hu2).
  set (l2 := run sort_greater operator_bool es1 l1) in *.
  set (l3 := work_loop_step operator_bool ok l2).
  assert (pc l3 = after_load img ∧ worker_calls l3 = worker_calls l2 ∧
          images l3 img = (if ok then loaded else failed) ∧
          sched l3 = sched l2) as (Hpc3 & Hc3 & Him3 & Hs3).
  { unfold l3, work_loop_step. rewrite Hpc2, Hpc1; simpl.
    split_and!; [done|done| |done]. unfold set_image. by rewrite decide_True. }
  rewrite <- Hs3 in Hu2.
  destruct (run_leaves_alone img es2 l3 Hes2 Hu2) as (Hpc4 & Hc4 & Him4 & Hu4).
  set (l4 := run sort_greater operator_bool es2 l3) in *.
  unfold work_loop_step. rewrite Hpc4, Hpc3.
  rewrite (proj2 (find_unscheduled_None _ _) Hu4); simpl.
  split_and!; [congruence|congruence|done].
Qed.
End uncancelled_load.

Lemma uncancelled_load_is_kept_witness :
  let l := run merge_sort_greater is_loaded [ev_schedule 1 0; ev_unschedule 2]
             idle_loader in
  let after :=
    work_loop_step is_loaded true
      (run merge_sort_greater is_loaded [ev_clear 2]
         (work_loop_step is_loaded true
            (run merge_sort_greater is_loaded [ev_schedule 1 4; ev_unschedule 3]
               (work_loop_step is_loaded true l)))) in
  images after 1 = loaded ∧
  worker_calls after = worker_calls l ++ [called_load 1] ∧
  pc after = at_loop_head.
Proof.
  apply (uncancelled_load_is_kept merge_sort_greater is_loaded
           (run merge_sort_greater is_loaded [ev_schedule 1 0; ev_unschedule 2]
              idle_loader)
           1 (Scheduler [] [2]) [ev_schedule 1 4; ev_unschedule 3] [ev_clear 2] true).
  - apply (run_scheduler_inv merge_sort_greater is_loaded merge_sort_greater_conforming
             [ev_schedule 1 0; ev_unschedule 2] idle_loader idle_scheduler_inv).
  - reflexivity.
  - reflexivity.
  - reflexivity.
  - reflexivity.
  - repeat constructor.
  - repeat constructor.
Defined.
